(** * FlashCrawler: a shallow embedding of the crawl engine

    The development follows [FlashCrawler.py]: the helpers [is_valid] and
    [normalize_param_signature], the link extractor [extract], the seed
    loader [load_urls] and the main loop of [crawl].

    Python values are rendered as follows.
    - [str] is [string] (a sequence of bytes; text outside ASCII is its
      UTF-8 encoding, whose byte order agrees with code point order);
    - [int] is [Z];
    - [set] is [gset string]; the order in which Python iterates over a
      set is not fixed by the language and is a parameter ([set_iter], a
      field of [World]);
    - [deque] is [list string], the left end being the head;
    - [dict] is [gmap];
    - an exception that no handler of the program catches ends the run:
      functions that may raise return in the monad [exc].

    The functions of [urllib.parse] that the program calls are modelled
    after CPython 3.12.  What they delegate to [ipaddress] and
    [unicodedata], and the percent-decoding of [unquote], is taken as a
    parameter (class [UrlOracle]).  The network and the HTML parser are
    a parameter too ([http], a field of [World]), and so are [urljoin]
    and the verdict of Rich on a text that the program prints with data
    in it ([markup], a field of [World]): Rich reads such a text as
    markup and raises [MarkupError] on a closing tag that closes
    nothing.  [time.sleep] is modelled after CPython 3.12.

    The texts that hold no data of the run (the heading of the banner,
    the rule, the numbers of the table) are printed without a verdict:
    they are fixed and Rich renders them.  The progress bar is reduced
    to the sequence of its updates ([visit_log]): its description holds
    a netloc, which has no slash and so no closing tag.  The files of
    [save_results] are taken to be writable, and the module to have
    been loaded: [results/] exists or could be made. *)

From Stdlib Require Import ZArith Ascii String.
From stdpp Require Import base tactics option list sorting gmap sets strings.
From stdpp Require Import relations pretty.

Set Default Proof Using "Type".

Local Open Scope string_scope.
Local Open Scope list_scope.

(** ** Exceptions *)

Inductive exn :=
  | ValueError
  | SystemExit
  | IndexError
  | MarkupError
  | OverflowError
  | OSError
  | UnicodeDecodeError.

Inductive exc (A : Type) :=
  | Ok (a : A)
  | Raise (e : exn).
Arguments Ok {A} a.
Arguments Raise {A} e.

Global Instance exc_ret : MRet exc := λ A a, Ok a.
Global Instance exc_bind : MBind exc := λ A B f m,
  match m with
  | Ok a => f a
  | Raise e => Raise e
  end.

(** ** Python string primitives *)

Module Str.

Definition code (c : ascii) : nat := nat_of_ascii c.

Fixpoint to_list (s : string) : list ascii :=
  match s with
  | "" => []
  | String c r => c :: to_list r
  end.

(** [c in s] *)
Fixpoint contains (c : ascii) (s : string) : bool :=
  match s with
  | "" => false
  | String a r => if Ascii.eqb a c then true else contains c r
  end.

(** [s.replace(c, "")] *)
Fixpoint remove (c : ascii) (s : string) : string :=
  match s with
  | "" => ""
  | String a r => if Ascii.eqb a c then remove c r else String a (remove c r)
  end.

(** [s.replace(c, d)] *)
Fixpoint replace (c d : ascii) (s : string) : string :=
  match s with
  | "" => ""
  | String a r => String (if Ascii.eqb a c then d else a) (replace c d r)
  end.

(** [s.partition(c)]: the text before the first [c] and the text after
    it, or [None] when [c] does not occur. *)
Fixpoint partition (c : ascii) (s : string) : option (string * string) :=
  match s with
  | "" => None
  | String a r =>
      if Ascii.eqb a c then Some ("", r)
      else match partition c r with
           | Some (h, t) => Some (String a h, t)
           | None => None
           end
  end.

(** [s.split(c)] *)
Fixpoint split (c : ascii) (s : string) : list string :=
  match s with
  | "" => [""]
  | String a r =>
      if Ascii.eqb a c then "" :: split c r
      else match split c r with
           | h :: t => String a h :: t
           | [] => [String a ""]
           end
  end.

(** [sep.join(l)] *)
Fixpoint join (sep : string) (l : list string) : string :=
  match l with
  | [] => ""
  | [x] => x
  | x :: r => x +:+ sep +:+ join sep r
  end.

(** The longest prefix of [s] all of whose characters satisfy [p], and
    the rest. *)
Fixpoint span (p : ascii → bool) (s : string) : string * string :=
  match s with
  | "" => ("", "")
  | String a r =>
      if p a then let '(h, t) := span p r in (String a h, t)
      else ("", s)
  end.

Definition forallb (p : ascii → bool) (s : string) : bool :=
  List.forallb p (to_list s).

Definition is_upper (c : ascii) : bool :=
  (65 <=? code c)%nat && (code c <=? 90)%nat.
Definition is_lower (c : ascii) : bool :=
  (97 <=? code c)%nat && (code c <=? 122)%nat.
Definition is_digit (c : ascii) : bool :=
  (48 <=? code c)%nat && (code c <=? 57)%nat.
(** [c.isascii() and c.isalpha()] *)
Definition is_ascii_alpha (c : ascii) : bool := is_upper c || is_lower c.
Definition is_ascii (c : ascii) : bool := (code c <? 128)%nat.

Definition lower_char (c : ascii) : ascii :=
  if is_upper c then ascii_of_nat (code c + 32) else c.
Fixpoint lower (s : string) : string :=
  match s with
  | "" => ""
  | String a r => String (lower_char a) (lower r)
  end.

(** [s.lstrip(chars)] for the characters satisfying [p] *)
Fixpoint lstrip (p : ascii → bool) (s : string) : string :=
  match s with
  | "" => ""
  | String a r => if p a then lstrip p r else s
  end.

Definition rev (s : string) : string := String.rev s.

(** [s.strip()] removes the white space of Unicode at both ends: the
    characters U+0009 to U+000D, U+001C to U+0020, U+0085, U+00A0,
    U+1680, U+2000 to U+200A, U+2028, U+2029, U+202F, U+205F and U+3000.
    [is_space] is the part within ASCII; [is_space2] and [is_space3]
    recognise the others by the two or three bytes of their encoding. *)
Definition is_space (c : ascii) : bool :=
  ((9 <=? code c)%nat && (code c <=? 13)%nat)
  || ((28 <=? code c)%nat && (code c <=? 32)%nat).
Definition is_space2 (a b : ascii) : bool :=
  (code a =? 194)%nat && ((code b =? 133)%nat || (code b =? 160)%nat).
Definition is_space3 (a b c : ascii) : bool :=
  ((code a =? 225)%nat && (code b =? 154)%nat && (code c =? 128)%nat)
  || ((code a =? 226)%nat && (code b =? 128)%nat
      && (((128 <=? code c)%nat && (code c <=? 138)%nat)
          || (code c =? 168)%nat || (code c =? 169)%nat
          || (code c =? 175)%nat))
  || ((code a =? 226)%nat && (code b =? 129)%nat && (code c =? 159)%nat)
  || ((code a =? 227)%nat && (code b =? 128)%nat && (code c =? 128)%nat).

(** The text left when the characters at its head that [p1], [p2] and
    [p3] recognise (by one, two and three bytes) are removed. *)
Fixpoint lstrip_wide (p1 : ascii → bool) (p2 : ascii → ascii → bool)
    (p3 : ascii → ascii → ascii → bool) (s : string) : string :=
  match s with
  | "" => ""
  | String a r =>
      if p1 a then lstrip_wide p1 p2 p3 r
      else match r with
           | "" => s
           | String b r2 =>
               if p2 a b then lstrip_wide p1 p2 p3 r2
               else match r2 with
                    | "" => s
                    | String c r3 =>
                        if p3 a b c then lstrip_wide p1 p2 p3 r3 else s
                    end
           end
  end.

(** The bytes of a character come in the opposite order at the end of
    the reversed text. *)
Definition strip (s : string) : string :=
  rev (lstrip_wide is_space (λ b a, is_space2 a b) (λ c b a, is_space3 a b c)
         (rev (lstrip_wide is_space is_space2 is_space3 s))).

(** [s.count(c)] *)
Fixpoint count (c : ascii) (s : string) : nat :=
  match s with
  | "" => 0
  | String a r => if Ascii.eqb a c then S (count c r) else count c r
  end.

Definition is_empty (s : string) : bool :=
  match s with "" => true | _ => false end.

End Str.

(** ** [urllib.parse] *)

(** What [urlsplit] and [unquote] delegate to other modules:
    - [check_bracketed_netloc netloc] says whether [_check_bracketed_netloc]
      accepts a netloc holding both brackets (it validates the bracketed
      host with [ipaddress]);
    - [checknetloc_nfkc netloc] says whether [_checknetloc] accepts a
      netloc that is not ASCII (it normalises with [unicodedata]);
    - [unquote_escapes s] is the value of [unquote(s)] when [s] holds a
      percent sign. *)
Class UrlOracle := {
  check_bracketed_netloc : string → bool;
  checknetloc_nfkc : string → bool;
  unquote_escapes : string → string;
}.

Record ParseResult := {
  scheme : string;
  netloc : string;
  path : string;
  params : string;
  query : string;
  fragment : string;
}.

Module Url.
Section parse.
Context `{UrlOracle}.

(** [_WHATWG_C0_CONTROL_OR_SPACE] *)
Definition c0_control_or_space (c : ascii) : bool := (Str.code c <=? 32)%nat.

(** [_UNSAFE_URL_BYTES_TO_REMOVE = ['\t', '\r', '\n']] *)
Definition remove_unsafe (s : string) : string :=
  Str.remove "010"%char (Str.remove "013"%char (Str.remove "009"%char s)).

(** [scheme_chars]: letters, digits and [+-.] *)
Definition scheme_char (c : ascii) : bool :=
  Str.is_ascii_alpha c || Str.is_digit c
  || Ascii.eqb c "+" || Ascii.eqb c "-" || Ascii.eqb c ".".

(** The scheme test of [urlsplit]: [i = url.find(':')], [i > 0], the
    first character an ASCII letter, and every character before the
    colon a scheme character. *)
Definition split_scheme (url : string) : string * string :=
  match Str.partition ":" url with
  | Some (String c0 pre, rest) =>
      if Str.is_ascii_alpha c0 && Str.forallb scheme_char (String c0 pre)
      then (Str.lower (String c0 pre), rest)
      else ("", url)
  | _ => ("", url)
  end.

(** [_splitnetloc(url, 2)] on a [url] that starts with [//] *)
Definition netloc_char (c : ascii) : bool :=
  negb (Ascii.eqb c "/" || Ascii.eqb c "?" || Ascii.eqb c "#").

Definition split_netloc (url : string) : option (string * string) :=
  match url with
  | String "/" (String "/" r) => Some (Str.span netloc_char r)
  | _ => None
  end.

Definition check_brackets (nl : string) : exc unit :=
  let o := Str.contains "[" nl in
  let c := Str.contains "]" nl in
  if (o && negb c) || (c && negb o) then Raise ValueError
  else if o && c then
    if check_bracketed_netloc nl then Ok () else Raise ValueError
  else Ok ().

Definition checknetloc (nl : string) : exc unit :=
  if Str.is_empty nl || Str.forallb Str.is_ascii nl then Ok ()
  else if checknetloc_nfkc nl then Ok () else Raise ValueError.

(** [urlsplit(url)]: the five components, [params] left empty. *)
Definition urlsplit (url0 : string) : exc ParseResult :=
  let url := remove_unsafe (Str.lstrip c0_control_or_space url0) in
  let '(sch, url) := split_scheme url in
  '(nl, url) ← match split_netloc url with
               | Some (nl, rest) => _ ← check_brackets nl; Ok (nl, rest)
               | None => Ok ("", url)
               end;
  let '(url, frag) := default (url, "") (Str.partition "#" url) in
  let '(url, q) := default (url, "") (Str.partition "?" url) in
  _ ← checknetloc nl;
  Ok {| scheme := sch; netloc := nl; path := url; params := "";
        query := q; fragment := frag |}.

(** [uses_params] *)
Definition uses_params : list string :=
  [""; "ftp"; "hdl"; "prospero"; "http"; "imap"; "https"; "shttp"; "rtsp";
   "rtspu"; "sip"; "sips"; "mms"; "sftp"; "tel"].

(** [_splitparams(url)], called when [';' in url]: the parameters start
    at the first semicolon found from the last slash on.  [rsplit_slash]
    cuts [url] at [url.rfind('/')]. *)
Fixpoint rsplit_slash (s : string) : string * string :=
  match s with
  | "" => ("", "")
  | String a r =>
      if Str.contains "/" r
      then let '(h, t) := rsplit_slash r in (String a h, t)
      else ("", s)
  end.

Definition splitparams (url : string) : string * string :=
  if Str.contains "/" url then
    let '(dir, seg) := rsplit_slash url in
    match Str.partition ";" seg with
    | Some (h, t) => (dir +:+ h, t)
    | None => (url, "")
    end
  else default (url, "") (Str.partition ";" url).

Definition urlparse (url : string) : exc ParseResult :=
  r ← urlsplit url;
  if bool_decide (scheme r ∈ uses_params) && Str.contains ";" (path r) then
    let '(p, ps) := splitparams (path r) in
    Ok {| scheme := scheme r; netloc := netloc r; path := p; params := ps;
          query := query r; fragment := fragment r |}
  else Ok r.

(** [unquote(s)]: the fast path returns [s] when it holds no percent
    sign. *)
Definition unquote (s : string) : string :=
  if Str.contains "%" s then unquote_escapes s else s.

(** [parse_qsl(qs)] with the defaults [keep_blank_values=False],
    [strict_parsing=False], [separator='&']. *)
Definition parse_field (name_value : string) : list (string * string) :=
  match Str.partition "=" name_value with
  | Some (n, v) =>
      if Str.is_empty v then []
      else [(unquote (Str.replace "+" " " n), unquote (Str.replace "+" " " v))]
  | None => []
  end.

Definition parse_qsl (qs : string) : list (string * string) :=
  flat_map parse_field (Str.split "&" qs).

(** [parse_qs(qs)]: the dictionary from each name to its values, in
    order of appearance. *)
Definition parse_qs_add (d : gmap string (list string)) (nv : string * string)
  : gmap string (list string) :=
  let '(name, value) := nv in
  match d !! name with
  | Some vs => <[name := (vs ++ [value])%list]> d
  | None => <[name := [value]]> d
  end.

Definition parse_qs (qs : string) : gmap string (list string) :=
  foldl parse_qs_add ∅ (parse_qsl qs).

End parse.
End Url.

(** A text without brackets and within ASCII: [urlsplit] consults no
    oracle on it. *)
Definition plain (s : string) : Prop :=
  Str.contains "[" s = false ∧ Str.contains "]" s = false
  ∧ Str.forallb Str.is_ascii s = true.

(** ** The crawler *)

(** The command line, as [argparse] hands it over.  [arg_list] is what
    [open(args.list)] and the reading of the file come to:
    - [FileNotFound name]: [open] raised [FileNotFoundError], [name]
      being the text given to [-l];
    - [FileError]: [open] or the reading raised another [OSError] (the
      name is that of a directory, or the file may not be read);
    - [FileUndecodable]: the reading raised [UnicodeDecodeError];
    - [FileLines lines]: the lines of the file.
    [None] stands for an option that is absent or empty, which is what
    the tests [if args.url] and [if args.list] see.  [arg_time] and
    [arg_req_timeout] are the integers given to [-t] and
    [--req-timeout]. *)
Inductive list_file :=
  | FileNotFound (name : string)
  | FileError
  | FileUndecodable
  | FileLines (lines : list string).

Record Args := {
  arg_url : option string;
  arg_list : option list_file;
  arg_depth : Z;
  arg_time : Z;
  arg_req_timeout : Z;
  arg_dedup_params : bool;
}.

(** What [requests.get] with the time limit of the run,
    [raise_for_status] and [BeautifulSoup] make of a URL:
    - one of the three failures that [extract] catches, with the text
      [str(e)] of the exception where the program prints it;
    - [Uncaught e]: an exception that is no [RequestException], which
      [extract] does not catch ([requests] raises [ValueError] for a
      time limit that is not positive);
    - a document with its effective address [r.url] and the [href] of
      each anchor that has one, in document order. *)
Inductive response :=
  | Timeout
  | RequestException (msg : string)
  | ParseError (msg : string)
  | Uncaught (e : exn)
  | Document (r_url : string) (hrefs : list string).

(** The surroundings of a run: the network, [urljoin], the order in
    which Python iterates over a set, and whether Rich renders a text
    as markup ([false] when it raises [MarkupError]). *)
Record World := {
  http : string → response;
  urljoin : string → string → exc string;
  set_iter : gset string → list string;
  markup : string → bool;
}.

(** The lines of [console.log], lines 114, 117 and 123, with the text
    that Rich is given. *)
Inductive log_entry :=
  | LogTimeout (u : string)
  | LogRequestFailed (u msg : string)
  | LogParseError (u msg : string).

Definition log_text (entry : log_entry) : string :=
  match entry with
  | LogTimeout u => "[yellow]⚠ Timeout:[/] " +:+ u
  | LogRequestFailed u msg => "[red]✖ Request failed:[/] " +:+ u +:+ " – " +:+ msg
  | LogParseError u msg => "[red]✖ HTML parse error:[/] " +:+ u +:+ " – " +:+ msg
  end.

(** The texts of lines 73 and 95. *)
Definition not_found_text (name : string) : string :=
  "[red]✖ File not found:[/] " +:+ name.
Definition seed_text (u : string) : string :=
  "[bold cyan]🌐 Seed:[/] " +:+ u.

(** The module-level variables of the program.  [visit_log] is the
    sequence of the [prog.update(task, advance=1, ...)] events, one per
    [visited.add(url)]; [console] is what [console.log] received. *)
Record State := {
  visited : gset string;
  queue : list string;
  found : gset string;
  allowed_domains : gset string;
  seen_param_signatures : gset string;
  visit_log : list string;
  console : list log_entry;
}.

Definition set_visited (v : gset string) (st : State) : State :=
  {| visited := v; queue := queue st; found := found st;
     allowed_domains := allowed_domains st;
     seen_param_signatures := seen_param_signatures st;
     visit_log := visit_log st; console := console st |}.
Definition set_queue (q : list string) (st : State) : State :=
  {| visited := visited st; queue := q; found := found st;
     allowed_domains := allowed_domains st;
     seen_param_signatures := seen_param_signatures st;
     visit_log := visit_log st; console := console st |}.
Definition set_found (f : gset string) (st : State) : State :=
  {| visited := visited st; queue := queue st; found := f;
     allowed_domains := allowed_domains st;
     seen_param_signatures := seen_param_signatures st;
     visit_log := visit_log st; console := console st |}.
Definition set_seen (s : gset string) (st : State) : State :=
  {| visited := visited st; queue := queue st; found := found st;
     allowed_domains := allowed_domains st;
     seen_param_signatures := s;
     visit_log := visit_log st; console := console st |}.
Definition set_visit_log (l : list string) (st : State) : State :=
  {| visited := visited st; queue := queue st; found := found st;
     allowed_domains := allowed_domains st;
     seen_param_signatures := seen_param_signatures st;
     visit_log := l; console := console st |}.
Definition set_console (c : list log_entry) (st : State) : State :=
  {| visited := visited st; queue := queue st; found := found st;
     allowed_domains := allowed_domains st;
     seen_param_signatures := seen_param_signatures st;
     visit_log := visit_log st; console := c |}.

(** How a run of the main loop ends. *)
Inductive outcome :=
  | Finished (st : State)
  | Crashed (e : exn)
  | OutOfFuel.

Section Crawler.
Context `{UrlOracle}.

Variable args : Args.
Variable w : World.

Definition TIMEOUT : Z := arg_req_timeout args.
Definition MAX_PAGES : Z := arg_depth args.
Definition DELAY : Z := arg_time args.
Definition DEDUP_PARAM_SIG : bool := arg_dedup_params args.

(** [console.print(text)], for a text with data of the run in it. *)
Definition print (text : string) : exc unit :=
  if markup w text then Ok () else Raise MarkupError.

(** [console.log(text)]: the line is on the console when Rich has
    rendered it. *)
Definition log (entry : log_entry) (st : State) : exc State :=
  _ ← print (log_text entry);
  Ok (set_console (console st ++ [entry]) st).

(** [time.sleep(secs)] on an integer: [OverflowError] when the
    nanoseconds do not fit 64 bits, [ValueError] when [secs] is
    negative. *)
Definition sleep (secs : Z) : exc unit :=
  if ((secs <? -9223372036) || (9223372036 <? secs))%Z
  then Raise OverflowError
  else if (secs <? 0)%Z then Raise ValueError
  else Ok ().

(** [is_valid], lines 98-100 *)
Definition is_valid (allowed : gset string) (u : string) : exc bool :=
  p ← Url.urlparse u;
  Ok (bool_decide (scheme p ∈ ["http"; "https"])
      && bool_decide (netloc p ∈ allowed)).

(** [normalize_param_signature], lines 102-107 *)
Definition sorted_keys (d : gmap string (list string)) : list string :=
  merge_sort String.le (elements (dom d)).

Definition normalize_param_signature (u : string) : exc string :=
  parsed ← Url.urlparse u;
  let keys := sorted_keys (Url.parse_qs (query parsed)) in
  match keys with
  | [] => Ok (path parsed)
  | _ => Ok (path parsed +:+ "?params=" +:+ Str.join "&" keys)
  end.

(** The loop over the anchors of [extract], lines 128-136.  [links] is
    the local set, [seen] is [seen_param_signatures]. *)
Fixpoint extract_links (allowed : gset string) (base : string)
    (hrefs : list string) (links seen : gset string)
    : exc (gset string * gset string) :=
  match hrefs with
  | [] => Ok (links, seen)
  | href :: rest =>
      abs_url ← urljoin w base href;
      ok ← is_valid allowed abs_url;
      if (ok : bool) then
        if DEDUP_PARAM_SIG then
          sig ← normalize_param_signature abs_url;
          if bool_decide (sig ∈ seen)
          then extract_links allowed base rest links seen
          else extract_links allowed base rest
                 ({[abs_url]} ∪ links) ({[sig]} ∪ seen)
        else extract_links allowed base rest ({[abs_url]} ∪ links) seen
      else extract_links allowed base rest links seen
  end.

(** [extract], lines 109-137: the links, and the state it leaves. *)
Definition extract (u : string) (st : State) : exc (gset string * State) :=
  match http w u with
  | Timeout =>
      st ← log (LogTimeout u) st; Ok (∅, st)
  | RequestException msg =>
      st ← log (LogRequestFailed u msg) st; Ok (∅, st)
  | ParseError msg =>
      st ← log (LogParseError u msg) st; Ok (∅, st)
  | Uncaught e => Raise e
  | Document base hrefs =>
      '(links, seen) ← extract_links (allowed_domains st) base hrefs ∅
                         (seen_param_signatures st);
      Ok (links, set_seen seen st)
  end.

(** [load_urls], lines 64-80, run on the initial module state.
    [seed_urls] is the set [urls] of line 77, or the exception that
    ends the program before; the message of line 73 goes through Rich
    before [exit(1)], the one of line 76 is a fixed text. *)
Definition truthy (s : string) : bool := negb (Str.is_empty s).

Definition file_urls (lines : list string) : gset string :=
  list_to_set (filter (λ l, truthy l = true) (Str.strip <$> lines)).

Definition seed_urls : exc (gset string) :=
  let urls : gset string :=
    match arg_url args with
    | Some u => if truthy u then {[u]} else ∅
    | None => ∅
    end in
  urls ← match arg_list args with
         | None => Ok urls
         | Some (FileNotFound _) => Raise SystemExit
         | Some FileError => Raise OSError
         | Some FileUndecodable => Raise UnicodeDecodeError
         | Some (FileLines lines) => Ok (urls ∪ file_urls lines)
         end;
  if bool_decide (urls = ∅) then Raise SystemExit else Ok urls.

Fixpoint seed_domains (us : list string) (allowed : gset string)
    : exc (gset string) :=
  match us with
  | [] => Ok allowed
  | u :: rest =>
      p ← Url.urlparse u;
      seed_domains rest ({[netloc p]} ∪ allowed)
  end.

Definition load_urls : exc State :=
  _ ← match arg_list args with
      | Some (FileNotFound name) => print (not_found_text name)
      | _ => Ok ()
      end;
  urls ← seed_urls;
  allowed ← seed_domains (set_iter w urls) ∅;
  Ok {| visited := ∅; queue := set_iter w urls; found := ∅;
        allowed_domains := allowed; seen_param_signatures := ∅;
        visit_log := []; console := [] |}.

(** The main loop of [crawl], lines 154-166. *)
Definition loop_cond (st : State) : bool :=
  negb (bool_decide (queue st = []))
  && bool_decide (Z.of_nat (size (visited st)) < MAX_PAGES)%Z.

(** Lines 164-165 *)
Definition push (st : State) (link : string) : State :=
  if bool_decide (link ∉ visited st) && bool_decide (link ∉ queue st)
  then set_queue (queue st ++ [link]) st
  else st.

(** The body of the loop, lines 155-166: [popleft], the test of line
    156, [visited.add], the progress event of line 160 (whose text needs
    [urlparse(url)]), [extract], [time.sleep(DELAY)], the pushes in the
    iteration order of [links], and [found.update]. *)
Definition loop_body (st : State) : exc State :=
  match queue st with
  | [] => Raise IndexError
  | u :: q =>
      let st := set_queue q st in
      if bool_decide (u ∈ visited st) then Ok st
      else
        let st := set_visited ({[u]} ∪ visited st) st in
        _ ← Url.urlparse u;
        let st := set_visit_log (visit_log st ++ [u]) st in
        '(links, st) ← extract u st;
        _ ← sleep DELAY;
        let st := foldl push st (set_iter w links) in
        Ok (set_found (found st ∪ links) st)
  end.

Fixpoint crawl_loop (fuel : nat) (st : State) : outcome :=
  if loop_cond st then
    match fuel with
    | O => OutOfFuel
    | S fuel =>
        match loop_body st with
        | Ok st' => crawl_loop fuel st'
        | Raise e => Crashed e
        end
    end
  else Finished st.

(** [load_urls] followed by the loop of [crawl]: the run without what
    [crawl] prints around the loop, which [program] below adds. *)
Definition main (fuel : nat) : outcome :=
  match load_urls with
  | Ok st => crawl_loop fuel st
  | Raise e => Crashed e
  end.

(** One iteration of the loop, and the states at the loop head that a
    run from [st0] goes through. *)
Definition step (st st' : State) : Prop :=
  loop_cond st = true ∧ loop_body st = Ok st'.

Definition reachable (st0 : State) : State → Prop := rtc step st0.

(** ** Notions used by the properties *)

(** What a sequence of pushes appends: the links that are neither
    visited nor queued, each once, in the order given. *)
Fixpoint pushed (vis : gset string) (q l : list string) : list string :=
  match l with
  | [] => []
  | u :: r =>
      if bool_decide (u ∉ vis) && bool_decide (u ∉ q)
      then u :: pushed vis (q ++ [u]) r
      else pushed vis q r
  end.

(** The signatures on record are those of the admitted links, and
    under [--dedup-params] no two admitted links share one. *)
Definition sig_inv (adm seen : gset string) : Prop :=
  (∀ s, s ∈ seen → ∃ u, u ∈ adm ∧ normalize_param_signature u = Ok s)
  ∧ (DEDUP_PARAM_SIG = true →
     (∀ u, u ∈ adm → ∃ s, normalize_param_signature u = Ok s ∧ s ∈ seen)
     ∧ (∀ u1 u2 s, u1 ∈ adm → u2 ∈ adm →
          normalize_param_signature u1 = Ok s →
          normalize_param_signature u2 = Ok s → u1 = u2)).

(** Python visits every member of a set once. *)
Definition iterates_once : Prop :=
  ∀ X : gset string, set_iter w X ≡ₚ elements X.

(** The state after lines 155-160, when [u] was not visited. *)
Definition entered (u : string) (q : list string) (st : State) : State :=
  set_visit_log (visit_log st ++ [u])
    (set_visited ({[u]} ∪ visited st) (set_queue q st)).

Record crawl_inv (seeds allowed : gset string) (st : State) : Prop := {
  inv_visited : visited st = list_to_set (visit_log st);
  inv_log : NoDup (visit_log st);
  inv_queue : NoDup (queue st);
  inv_disjoint : ∀ u, u ∈ queue st → u ∉ visited st;
  inv_allowed : allowed_domains st = allowed;
  inv_origin : ∀ u, u ∈ queue st ∨ u ∈ visited st → u ∈ seeds ∨ u ∈ found st;
  inv_scope : ∀ u, u ∈ found st → is_valid allowed u = Ok true;
  inv_seeds : ∀ u, u ∈ seeds → u ∈ queue st ∨ u ∈ visited st;
  inv_budget : (Z.of_nat (size (visited st)) ≤ Z.max 0 MAX_PAGES)%Z;
  inv_sig : sig_inv (found st) (seen_param_signatures st);
}.

(** The budget left; with the length of the queue it measures the
    iterations left. *)
Definition budget_left (st : State) : nat :=
  Z.to_nat (MAX_PAGES - Z.of_nat (size (visited st))).

(** The signature as the specification words it, to be compared with
    [normalize_param_signature]: the path, then the sorted set of the
    names of the query parameters, values discarded.  Every field of the
    query counts, [name=value] for its name whatever the value, and a
    field without [=] as a name. *)
Definition field_name (f : string) : string :=
  match Str.partition "=" f with
  | Some (n, _) => n
  | None => f
  end.

Definition query_names (q : string) : list string :=
  field_name <$> filter (λ f, truthy f = true) (Str.split "&" q).

Definition signatureOf (u : string) : exc string :=
  parsed ← Url.urlparse u;
  let names := merge_sort String.le (remove_dups (query_names (query parsed))) in
  match names with
  | [] => Ok (path parsed)
  | _ => Ok (path parsed +:+ "?params=" +:+ Str.join "&" names)
  end.

(** The names that [parse_qs] keeps: those of the fields [name=value]
    whose value is not empty, decoded. *)
Definition kept_name (q n : string) : Prop :=
  ∃ f n0 v0, f ∈ Str.split "&" q ∧ Str.partition "=" f = Some (n0, v0)
             ∧ v0 ≠ "" ∧ n = Url.unquote (Str.replace "+" " " n0).

(** [urlparse] accepts [u]. *)
Definition parses (u : string) : Prop :=
  match Url.urlparse u with Ok _ => True | Raise _ => False end.

(** The console line that [extract] writes for a failed fetch or parse. *)
Definition failure_log (r : response) (u : string) : option log_entry :=
  match r with
  | Timeout => Some (LogTimeout u)
  | RequestException msg => Some (LogRequestFailed u msg)
  | ParseError msg => Some (LogParseError u msg)
  | Uncaught _ => None
  | Document _ _ => None
  end.

End Crawler.

(** ** Fixtures for the examples *)

(** An oracle for closed examples.  None of them has a bracket, a byte
    outside ASCII or a percent sign, so it is never consulted. *)
Definition strict_oracle : UrlOracle :=
  {| check_bracketed_netloc := λ _, false;
     checknetloc_nfkc := λ _, false;
     unquote_escapes := λ s, s |}.

(** [urljoin] on references that are absolute URLs already. *)
Definition urljoin_absolute (base ref : string) : exc string := Ok ref.

(** The verdict of Rich on the texts of the examples: their tags are
    those of the program, which are closed, and [[/b]], which closes
    nothing. *)
Definition markup_examples (text : string) : bool :=
  match String.index 0 "[/b]" text with
  | Some _ => false
  | None => true
  end.

(** A site whose front page holds an anchor with a malformed address. *)
Definition world_malformed : World :=
  {| http := λ u, Document u ["http://["];
     urljoin := urljoin_absolute; set_iter := elements;
     markup := markup_examples |}.

(** A site whose every fetch times out. *)
Definition world_timeout : World :=
  {| http := λ _, Timeout; urljoin := urljoin_absolute; set_iter := elements;
     markup := markup_examples |}.

(** The command line [-u u -d d], with [--dedup-params] or without,
    the other options at their defaults. *)
Definition cli (u : string) (d : Z) (dedup : bool) : Args :=
  {| arg_url := Some u; arg_list := None; arg_depth := d;
     arg_time := 0; arg_req_timeout := 10;
     arg_dedup_params := dedup |}.

(** The no-break space U+00A0, as UTF-8. *)
Definition nbsp : string :=
  String (ascii_of_nat 194) (String (ascii_of_nat 160) "").

(** The command line [-u u -l name], [name] being a file of the given
    lines, or [-l name] alone. *)
Definition cli_list (u : option string) (lines : list string) : Args :=
  {| arg_url := u; arg_list := Some (FileLines lines); arg_depth := 50;
     arg_time := 0; arg_req_timeout := 10; arg_dedup_params := false |}.

(** The command line [-u u -d d -t t]. *)
Definition cli_time (u : string) (d t : Z) : Args :=
  {| arg_url := Some u; arg_list := None; arg_depth := d;
     arg_time := t; arg_req_timeout := 10;
     arg_dedup_params := false |}.

(** A site whose front page links to [/[/b]], an address of the site
    whose fetch times out like every other. *)
Definition world_markup : World :=
  {| http := λ u, if String.eqb u "http://h/"
                  then Document u ["http://h/[/b]"]
                  else Timeout;
     urljoin := urljoin_absolute; set_iter := elements;
     markup := markup_examples |}.

(** A site whose every page links to itself. *)
Definition world_self : World :=
  {| http := λ u, Document u [u];
     urljoin := urljoin_absolute; set_iter := elements;
     markup := markup_examples |}.

(** A site whose page [/p?id=1] links to [/p?id=2]; the other pages
    have no link. *)
Definition world_params : World :=
  {| http := λ u, if String.eqb u "http://h/p?id=1"
                  then Document u ["http://h/p?id=2"]
                  else Document u [];
     urljoin := urljoin_absolute; set_iter := elements;
     markup := markup_examples |}.

(** A site whose front page exposes [/p?id=1], [/p?id=2], [/p?id=3&x=1]. *)
Definition world_sig : World :=
  {| http := λ u, if String.eqb u "http://h/"
                  then Document u ["http://h/p?id=1"; "http://h/p?id=2";
                                   "http://h/p?id=3&x=1"]
                  else Document u [];
     urljoin := urljoin_absolute; set_iter := elements;
     markup := markup_examples |}.

(** The page graph A -> {B, C}, B -> {D}. *)
Definition web_bfs (u : string) : response :=
  if String.eqb u "http://h/a" then Document u ["http://h/b"; "http://h/c"]
  else if String.eqb u "http://h/b" then Document u ["http://h/d"]
  else Document u [].

Definition world_bfs : World :=
  {| http := web_bfs; urljoin := urljoin_absolute; set_iter := elements;
     markup := markup_examples |}.

(** A state given by lists, for the runs of the examples. *)
Definition st_of (als vis q fnd seen log : list string) : State :=
  {| visited := list_to_set vis; queue := q; found := list_to_set fnd;
     allowed_domains := list_to_set als;
     seen_param_signatures := list_to_set seen;
     visit_log := log; console := [] |}.

(** On the graph A -> {B, C}, B -> {D} with seed A: the state after the
    visit of A, and the state after the visit of C that follows. *)
Definition bfs_after_a : State :=
  st_of ["h"] ["http://h/a"] ["http://h/c"; "http://h/b"]
    ["http://h/b"; "http://h/c"] [] ["http://h/a"].
Definition bfs_after_c : State :=
  st_of ["h"] ["http://h/a"; "http://h/c"] ["http://h/b"]
    ["http://h/b"; "http://h/c"] [] ["http://h/a"; "http://h/c"].

(** The state [load_urls] leaves for one seed [u] of netloc [d]. *)
Definition seeded (u d : string) : State :=
  {| visited := ∅; queue := [u]; found := ∅; allowed_domains := {[d]};
     seen_param_signatures := ∅; visit_log := []; console := [] |}.

(** ** The report: [show_table], [save_results] and the end of [crawl] *)

Definition newline : string := String "010"%char "".

(** [sorted(l)] on strings. *)
Definition py_sorted (l : list string) : list string := merge_sort String.le l.

(** What the calls [f.write(x + "\n")], one for each [x] of [l], leave in
    a file opened with mode ["w"]. *)
Fixpoint write_lines (l : list string) : string :=
  match l with
  | [] => ""
  | x :: r => x +:+ newline +:+ write_lines r
  end.

(** The three files of [results/] and the numbers printed after them. *)
Record Saved := {
  found_urls : string;
  found_parameters : string;
  deduplicate_params : string;
  total_urls : Z;
  with_parameters : Z;
  unique_param_patterns : option Z;
}.

(** How [crawl] ends: the table shown and what was saved, or the
    exception that ended it (nothing is saved then). *)
Inductive crawl_outcome :=
  | Reported (st : State) (table : list (string * string))
      (saved : option Saved)
  | CrawlCrashed (e : exn)
  | CrawlOutOfFuel.

Section Report.
Context `{UrlOracle}.
Variable args : Args.
Variable w : World.

(** [console.print] on each text of a list, for the cells of a table
    and the lines of a loop. *)
Fixpoint print_all (texts : list string) : exc unit :=
  match texts with
  | [] => Ok ()
  | text :: rest => _ ← print w text; print_all rest
  end.

(** [banner], lines 83-96: the heading is fixed; one line for each seed
    of the queue. *)
Definition banner (st : State) : exc unit :=
  print_all (seed_text <$> queue st).

(** [show_table], lines 175-182: the rows [(str(i), url)] of
    [enumerate(sorted(visited.union(found)), 1)], which
    [console.print(table)] renders, each URL as markup. *)
Definition table_rows_of (st : State) : list (string * string) :=
  imap (λ i u, (pretty (Z.of_nat i + 1)%Z, u))
    (py_sorted (set_iter w (visited st ∪ found st))).

Definition show_table (st : State) : exc (list (string * string)) :=
  let rows := table_rows_of st in
  _ ← print_all rows.*2;
  Ok rows.

(** [save_results], lines 184-203. *)
Definition save_results (st : State) : Saved :=
  let all_urls := visited st ∪ found st in
  let sorted_urls := py_sorted (set_iter w all_urls) in
  {| found_urls := write_lines sorted_urls;
     found_parameters :=
       write_lines (filter (λ u, Str.contains "?" u = true) sorted_urls);
     deduplicate_params :=
       if DEDUP_PARAM_SIG args
       then write_lines (py_sorted (set_iter w (seen_param_signatures st)))
       else "";
     total_urls := Z.of_nat (size all_urls);
     with_parameters :=
       Z.of_nat (length (filter (λ u, Str.contains "?" u = true)
                           (set_iter w all_urls)));
     unique_param_patterns :=
       if DEDUP_PARAM_SIG args
       then Some (Z.of_nat (size (seen_param_signatures st)))
       else None |}.

(** [crawl], lines 140-172: the banner, the loop, the table, and the
    files when [SAVE_RESULTS] ([--save]) is set. *)
Definition crawl (save : bool) (fuel : nat) (st : State) : crawl_outcome :=
  match banner st with
  | Raise e => CrawlCrashed e
  | Ok _ =>
      match crawl_loop args w fuel st with
      | Finished st' =>
          match show_table st' with
          | Ok table =>
              Reported st' table
                (if save then Some (save_results st') else None)
          | Raise e => CrawlCrashed e
          end
      | Crashed e => CrawlCrashed e
      | OutOfFuel => CrawlOutOfFuel
      end
  end.

(** The entry point, lines 206-208: [load_urls()], then [crawl()]. *)
Definition program (save : bool) (fuel : nat) : crawl_outcome :=
  match load_urls args w with
  | Ok st => crawl save fuel st
  | Raise e => CrawlCrashed e
  end.

(** The seeds as the command line gives them: the [-u] argument and the
    stripped lines of the [-l] file, the empty ones left out. *)
Definition is_seed (u : string) : Prop :=
  u ≠ ""
  ∧ (arg_url args = Some u
     ∨ ∃ lines l, arg_list args = Some (FileLines lines)
                  ∧ l ∈ lines ∧ Str.strip l = u).

(** The [-l] option is absent, or its file was opened and read. *)
Definition list_read : Prop :=
  match arg_list args with
  | None | Some (FileLines _) => True
  | Some (FileNotFound _) | Some FileError | Some FileUndecodable => False
  end.

(** The links of a page that are in scope: the anchors, resolved against
    the address of the page, that pass [is_valid]. *)
Definition in_scope_link (allowed : gset string) (base : string)
    (hrefs : list string) (a : string) : Prop :=
  ∃ href, href ∈ hrefs ∧ urljoin w base href = Ok a
          ∧ is_valid allowed a = Ok true.

(** What the link loop has admitted under [--dedup-params], [seen0]
    being the signatures on record when it started: each link in [links]
    is an in-scope link of the page with a signature that was new, the
    signatures on record are the old ones and those of [links], one link
    for each. *)
Definition fresh_links (allowed : gset string) (base : string)
    (hrefs : list string) (seen0 links seen : gset string) : Prop :=
  seen0 ⊆ seen
  ∧ (∀ a, a ∈ links →
       in_scope_link allowed base hrefs a
       ∧ ∃ s, normalize_param_signature a = Ok s ∧ s ∈ seen ∧ s ∉ seen0)
  ∧ (∀ s, s ∈ seen →
       s ∈ seen0 ∨ ∃ a, a ∈ links ∧ normalize_param_signature a = Ok s)
  ∧ (∀ a1 a2 s, a1 ∈ links → a2 ∈ links →
       normalize_param_signature a1 = Ok s →
       normalize_param_signature a2 = Ok s → a1 = a2)
  ∧ size seen = (size seen0 + size links)%nat.

End Report.

(** * Properties *)

(** ** The exception monad *)

Lemma exc_bind_ok {A B} (f : A → exc B) (m : exc A) (b : B) :
  m ≫= f = Ok b ↔ ∃ a, m = Ok a ∧ f a = Ok b.
Proof.
  destruct m as [a|e]; simpl; split.
  - eauto.
  - by intros (a' & [= ->] & ?).
  - done.
  - by intros (a' & ? & ?).
Qed.

Ltac exc_inv H :=
  repeat match type of H with
  | (_ ≫= _) = Ok _ =>
      let x := fresh "x" in let Hx := fresh "Hx" in
      apply exc_bind_ok in H as (x & Hx & H)
  end.

(** ** Lists *)

Lemma filter_ext_elem {A} (P1 P2 : A → Prop)
    `{!∀ x, Decision (P1 x), !∀ x, Decision (P2 x)} (l : list A) :
  (∀ x, x ∈ l → P1 x ↔ P2 x) → filter P1 l = filter P2 l.
Proof.
  induction l as [|a l IH]; intros Hl; [done|].
  rewrite !filter_cons, IH by (intros; apply Hl; set_solver).
  assert (P1 a ↔ P2 a) by (apply Hl; set_solver).
  repeat case_decide; tauto || done.
Qed.

(** ** Characters of the parts of a URL *)

Lemma contains_elem c s : Str.contains c s = true ↔ c ∈ Str.to_list s.
Proof.
  induction s as [|a s IH]; simpl.
  - split; [done|by intros ?%elem_of_nil].
  - rewrite elem_of_cons. destruct (Ascii.eqb_spec a c) as [->|Hne].
    + split; auto.
    + rewrite IH. split; [auto|]. by intros [->|?].
Qed.

Lemma forallb_elem P s :
  Str.forallb P s = true ↔ ∀ c, c ∈ Str.to_list s → P c = true.
Proof.
  unfold Str.forallb. rewrite forallb_forall.
  by setoid_rewrite list_elem_of_In.
Qed.

Lemma lstrip_chars P s : Str.to_list (Str.lstrip P s) ⊆ Str.to_list s.
Proof.
  induction s as [|a s IH]; simpl; [done|].
  destruct (P a); [|done]. set_solver.
Qed.

Lemma remove_chars c s : Str.to_list (Str.remove c s) ⊆ Str.to_list s.
Proof.
  induction s as [|a s IH]; simpl; [done|].
  destruct (Ascii.eqb a c); simpl; set_solver.
Qed.

Lemma partition_chars c s h t :
  Str.partition c s = Some (h, t) →
  Str.to_list h ⊆ Str.to_list s ∧ Str.to_list t ⊆ Str.to_list s.
Proof.
  revert h. induction s as [|a s IH]; intros h; simpl; [done|].
  destruct (Ascii.eqb a c).
  - intros [= <- <-]. simpl. set_solver.
  - destruct (Str.partition c s) as [[h' t']|]; [|done].
    intros [= <- <-]. destruct (IH h' eq_refl). simpl. set_solver.
Qed.

Lemma span_chars P s h t :
  Str.span P s = (h, t) → Str.to_list h ⊆ Str.to_list s.
Proof.
  revert h t. induction s as [|a s IH]; intros h t; simpl.
  - by intros [= <- <-].
  - destruct (P a); [|intros [= <- <-]; simpl; set_solver].
    destruct (Str.span P s) as [h' t']. intros [= <- <-].
    specialize (IH h' t' eq_refl). simpl. set_solver.
Qed.

(** ** Query strings *)

Section Query.
Context `{UrlOracle}.

Lemma is_empty_true s : Str.is_empty s = true ↔ s = "".
Proof. by destruct s. Qed.

Lemma parse_field_elem f n v :
  (n, v) ∈ Url.parse_field f ↔
  ∃ n0 v0, Str.partition "=" f = Some (n0, v0) ∧ v0 ≠ ""
           ∧ n = Url.unquote (Str.replace "+" " " n0)
           ∧ v = Url.unquote (Str.replace "+" " " v0).
Proof.
  unfold Url.parse_field.
  destruct (Str.partition "=" f) as [[n0 v0]|]; [|set_solver].
  destruct v0 as [|c v0]; simpl.
  - split; [by intros ?%elem_of_nil|]. by intros (? & ? & [= <- <-] & ? & _).
  - rewrite list_elem_of_singleton. split.
    + intros [= -> ->]. by exists n0, (String c v0).
    + by intros (? & ? & [= <- <-] & _ & -> & ->).
Qed.

Lemma parse_qsl_elem q n v :
  (n, v) ∈ Url.parse_qsl q ↔
  ∃ f, f ∈ Str.split "&" q ∧ (n, v) ∈ Url.parse_field f.
Proof.
  unfold Url.parse_qsl. rewrite list_elem_of_In, in_flat_map.
  by setoid_rewrite list_elem_of_In.
Qed.

Lemma parse_qsl_names q n :
  (∃ v, (n, v) ∈ Url.parse_qsl q) ↔ kept_name q n.
Proof.
  unfold kept_name. split.
  - intros (v & (f & Hf & (n0 & v0 & ? & ? & ? & _)%parse_field_elem)%parse_qsl_elem).
    by exists f, n0, v0.
  - intros (f & n0 & v0 & Hf & Hp & Hv & ->).
    exists (Url.unquote (Str.replace "+" " " v0)).
    apply parse_qsl_elem. exists f. split; [done|].
    apply parse_field_elem. by exists n0, v0.
Qed.

Lemma parse_qs_add_dom d nv :
  dom (Url.parse_qs_add d nv) = {[nv.1]} ∪ dom d.
Proof.
  destruct nv as [n v]. unfold Url.parse_qs_add. simpl.
  destruct (d !! n); by rewrite dom_insert_L.
Qed.

Lemma parse_qs_dom_fold l d :
  dom (foldl Url.parse_qs_add d l) = list_to_set l.*1 ∪ dom d.
Proof.
  revert d. induction l as [|nv l IH]; intros d; simpl; [set_solver|].
  rewrite IH, parse_qs_add_dom. set_solver.
Qed.

Lemma parse_qs_dom q n : n ∈ dom (Url.parse_qs q) ↔ kept_name q n.
Proof.
  unfold Url.parse_qs. rewrite parse_qs_dom_fold, dom_empty_L.
  rewrite <- parse_qsl_names, elem_of_union, elem_of_list_to_set, list_elem_of_fmap.
  split.
  - intros [([n' v] & -> & ?)|?%elem_of_empty]; [|done]. by exists v.
  - intros [v ?]. left. by exists (n, v).
Qed.

(** [sorted(...keys())]: the kept names, each once, in increasing order. *)
Lemma sorted_keys_spec q :
  let keys := sorted_keys (Url.parse_qs q) in
  StronglySorted String.le keys ∧ NoDup keys ∧ ∀ n, n ∈ keys ↔ kept_name q n.
Proof.
  unfold sorted_keys. split_and!.
  - apply (StronglySorted_merge_sort _).
  - rewrite merge_sort_Permutation. apply NoDup_elements.
  - intros n. rewrite merge_sort_Permutation, elem_of_elements.
    apply parse_qs_dom.
Qed.

Lemma sorted_keys_ext q1 q2 :
  (∀ n, kept_name q1 n ↔ kept_name q2 n) →
  sorted_keys (Url.parse_qs q1) = sorted_keys (Url.parse_qs q2).
Proof.
  intros Hk. unfold sorted_keys. f_equal. f_equal. apply set_eq.
  intros n. by rewrite !parse_qs_dom.
Qed.

Lemma sorted_keys_nil q :
  sorted_keys (Url.parse_qs q) = [] ↔ ∀ n, ¬ kept_name q n.
Proof.
  destruct (sorted_keys_spec q) as (_ & _ & Hk). split.
  - intros He n Hn%Hk. rewrite He in Hn. by apply elem_of_nil in Hn.
  - intros Hn. destruct (sorted_keys _) as [|k ks]; [done|].
    destruct (Hn k). apply Hk. set_solver.
Qed.

Lemma normalize_param_signature_eq u p :
  Url.urlparse u = Ok p →
  normalize_param_signature u
  = Ok (match sorted_keys (Url.parse_qs (query p)) with
        | [] => path p
        | keys => path p +:+ "?params=" +:+ Str.join "&" keys
        end).
Proof.
  intros Hp. unfold normalize_param_signature. rewrite Hp. simpl.
  by destruct (sorted_keys _).
Qed.

(** When [urlsplit] raises, it raises [ValueError], and the text holds
    a bracket or a byte outside ASCII. *)
Lemma split_scheme_chars url sch rest :
  Url.split_scheme url = (sch, rest) → Str.to_list rest ⊆ Str.to_list url.
Proof.
  unfold Url.split_scheme.
  destruct (Str.partition ":" url) as [[[|c0 pre] t]|] eqn:Hp;
    try by intros [= <- <-].
  destruct (_ && _); intros [= <- <-]; [|done].
  by apply partition_chars in Hp as [_ ?].
Qed.

Lemma split_netloc_chars url nl rest :
  Url.split_netloc url = Some (nl, rest) → Str.to_list nl ⊆ Str.to_list url.
Proof.
  unfold Url.split_netloc.
  destruct url as [|a url]; [done|].
  destruct a as [[] [] [] [] [] [] [] []]; try done.
  destruct url as [|b r]; [done|].
  destruct b as [[] [] [] [] [] [] [] []]; try done.
  intros [= Hs]. apply span_chars in Hs. simpl. set_solver.
Qed.

Lemma plain_sub s t : Str.to_list s ⊆ Str.to_list t → plain t → plain s.
Proof.
  intros Hsub (Ho & Hc & Ha). split_and!.
  - apply not_true_is_false. intros Hin%contains_elem.
    apply Hsub, contains_elem in Hin. congruence.
  - apply not_true_is_false. intros Hin%contains_elem.
    apply Hsub, contains_elem in Hin. congruence.
  - apply forallb_elem. intros c Hin. by apply (proj1 (forallb_elem _ _) Ha), Hsub.
Qed.

Lemma urlsplit_raise u e :
  Url.urlsplit u = Raise e → e = ValueError ∧ ¬ plain u.
Proof.
  unfold Url.urlsplit.
  set (url := Url.remove_unsafe _).
  assert (Str.to_list url ⊆ Str.to_list u) as Hurl.
  { unfold url, Url.remove_unsafe.
    etrans; [apply remove_chars|]. etrans; [apply remove_chars|].
    etrans; [apply remove_chars|]. apply lstrip_chars. }
  destruct (Url.split_scheme url) as [sch url1] eqn:Hs.
  apply split_scheme_chars in Hs.
  destruct (Url.split_netloc url1) as [[nl rest]|] eqn:Hn; simpl.
  - apply split_netloc_chars in Hn.
    assert (plain u → plain nl) as Hplain.
    { apply plain_sub. set_solver. }
    unfold Url.check_brackets.
    destruct (Str.contains "[" nl) eqn:Ho; destruct (Str.contains "]" nl) eqn:Hc;
      simpl.
    + destruct (check_bracketed_netloc nl); simpl.
      * destruct (default _ _) as [url2 frag]. destruct (default _ _) as [url3 q].
        unfold Url.checknetloc.
        destruct (Str.is_empty nl || Str.forallb Str.is_ascii nl) eqn:Ha;
          simpl; [done|].
        destruct (checknetloc_nfkc nl); simpl; [done|].
        intros [= <-]. split; [done|]. intros (? & _)%Hplain. congruence.
      * intros [= <-]. split; [done|]. intros (? & _)%Hplain. congruence.
    + intros [= <-]. split; [done|]. intros (? & _)%Hplain. congruence.
    + intros [= <-]. split; [done|]. intros (_ & ? & _)%Hplain. congruence.
    + destruct (default _ _) as [url2 frag]. destruct (default _ _) as [url3 q].
      unfold Url.checknetloc.
      destruct (Str.is_empty nl || Str.forallb Str.is_ascii nl) eqn:Ha;
        simpl; [done|].
      destruct (checknetloc_nfkc nl); simpl; [done|].
      intros [= <-]. split; [done|]. intros (_ & _ & Hall)%Hplain.
      rewrite Hall, orb_true_r in Ha. done.
  - destruct (default _ _) as [url2 frag]. destruct (default _ _) as [url3 q].
    done.
Qed.

Lemma urlparse_raise u e :
  Url.urlparse u = Raise e → e = ValueError ∧ ¬ plain u.
Proof.
  unfold Url.urlparse.
  destruct (Url.urlsplit u) as [r|e'] eqn:Hs; simpl.
  - destruct (_ && _); [|done]. by destruct (Url.splitparams _).
  - intros [= <-]. by apply urlsplit_raise.
Qed.

End Query.

(** ** The frontier *)

Section Frontier.
Context `{UrlOracle}.
Variable args : Args.
Variable w : World.

Local Abbreviation extract := (extract args w).
Local Abbreviation loop_body := (loop_body args w).
Local Abbreviation loop_cond := (loop_cond args).
Local Abbreviation crawl_loop := (crawl_loop args w).
Local Abbreviation step := (step args w).
Local Abbreviation reachable := (reachable args w).
Local Abbreviation sig_inv := (sig_inv args).
Local Abbreviation iterates_once := (iterates_once w).
Local Abbreviation crawl_inv := (crawl_inv args).
Local Abbreviation budget_left := (budget_left args).

(** [push] touches the queue only. *)
Lemma push_frame st link :
  visited (push st link) = visited st
  ∧ found (push st link) = found st
  ∧ allowed_domains (push st link) = allowed_domains st
  ∧ seen_param_signatures (push st link) = seen_param_signatures st
  ∧ visit_log (push st link) = visit_log st
  ∧ console (push st link) = console st.
Proof. unfold push. by case_match. Qed.

Lemma foldl_push_frame l st :
  visited (foldl push st l) = visited st
  ∧ found (foldl push st l) = found st
  ∧ allowed_domains (foldl push st l) = allowed_domains st
  ∧ seen_param_signatures (foldl push st l) = seen_param_signatures st
  ∧ visit_log (foldl push st l) = visit_log st
  ∧ console (foldl push st l) = console st.
Proof.
  revert st. induction l as [|x l IH]; intros st; simpl; [done|].
  destruct (IH (push st x)) as (-> & -> & -> & -> & -> & ->).
  apply push_frame.
Qed.

Lemma foldl_push_queue l st :
  queue (foldl push st l) = queue st ++ pushed (visited st) (queue st) l.
Proof.
  revert st. induction l as [|x l IH]; intros st; simpl.
  - by rewrite app_nil_r.
  - rewrite IH. unfold push.
    destruct (bool_decide (x ∉ visited st) && bool_decide (x ∉ queue st));
      simpl; [|done].
    by rewrite <- app_assoc.
Qed.

Lemma pushed_elem vis q l u :
  u ∈ pushed vis q l → u ∈ l ∧ u ∉ vis ∧ u ∉ q.
Proof.
  revert q. induction l as [|x l IH]; intros q; simpl.
  - by intros ?%elem_of_nil.
  - destruct (bool_decide (x ∉ vis)) eqn:Hv;
      destruct (bool_decide (x ∉ q)) eqn:Hq; simpl.
    + apply bool_decide_eq_true in Hv, Hq.
      intros [->|Hu]%elem_of_cons; [set_solver|].
      apply IH in Hu as (? & ? & Hn). rewrite elem_of_app in Hn. set_solver.
    + intros (? & ? & ?)%IH. set_solver.
    + intros (? & ? & ?)%IH. set_solver.
    + intros (? & ? & ?)%IH. set_solver.
Qed.

Lemma pushed_NoDup vis q l : NoDup q → NoDup (q ++ pushed vis q l).
Proof.
  revert q. induction l as [|x l IH]; intros q Hq; simpl.
  - by rewrite app_nil_r.
  - destruct (bool_decide (x ∉ vis)); simpl; [|by apply IH].
    destruct (bool_decide (x ∉ q)) eqn:Hx; simpl; [|by apply IH].
    apply bool_decide_eq_true in Hx.
    replace (q ++ x :: pushed vis (q ++ [x]) l)
      with ((q ++ [x]) ++ pushed vis (q ++ [x]) l)
      by (by rewrite <- app_assoc).
    apply IH. apply NoDup_app. split_and!; [done| |apply NoDup_singleton].
    intros y Hy ->%list_elem_of_singleton. done.
Qed.

Lemma pushed_complete vis q l u :
  u ∈ l → u ∉ vis → u ∈ q ++ pushed vis q l.
Proof.
  revert q. induction l as [|x l IH]; intros q; simpl.
  - by intros ?%elem_of_nil.
  - intros [->|Hu]%elem_of_cons Hv.
    + rewrite bool_decide_eq_true_2 by done. simpl.
      destruct (decide (x ∈ q)) as [Hq|Hq].
      * rewrite bool_decide_eq_false_2 by tauto. set_solver.
      * rewrite bool_decide_eq_true_2 by done. set_solver.
    + destruct (bool_decide (x ∉ vis) && bool_decide (x ∉ q)).
      * specialize (IH (q ++ [x]) Hu Hv).
        by rewrite <- app_assoc in IH.
      * by apply IH.
Qed.

(** On a list without repetition, the pushes are a filter. *)
Lemma pushed_filter vis q l :
  NoDup l → pushed vis q l = filter (λ u, u ∉ vis ∧ u ∉ q) l.
Proof.
  revert q. induction l as [|x l IH]; intros q Hl; simpl; [done|].
  apply NoDup_cons in Hl as [Hx Hl].
  rewrite filter_cons.
  destruct (decide (x ∉ vis ∧ x ∉ q)) as [[Hv Hq]|Hn].
  - rewrite !bool_decide_eq_true_2 by done. simpl. f_equal.
    rewrite IH by done. apply filter_ext_elem.
    intros y Hy. rewrite elem_of_app, list_elem_of_singleton.
    split; [tauto|]. intros [? ?]. split; [done|].
    intros [?| ->]; done.
  - destruct (bool_decide (x ∉ vis)) eqn:Hv;
      destruct (bool_decide (x ∉ q)) eqn:Hq; simpl; try by apply IH.
    apply bool_decide_eq_true in Hv, Hq. tauto.
Qed.


(** ** The extractor *)

Lemma is_valid_true allowed u :
  is_valid allowed u = Ok true ↔
  ∃ p, Url.urlparse u = Ok p
       ∧ scheme p ∈ ["http"; "https"] ∧ netloc p ∈ allowed.
Proof.
  unfold is_valid. split.
  - intros Hv. exc_inv Hv. injection Hv as Hv.
    apply andb_true_iff in Hv as [?%bool_decide_eq_true ?%bool_decide_eq_true].
    eauto.
  - intros (p & -> & Hs & Hn). simpl.
    by rewrite !bool_decide_eq_true_2.
Qed.

Lemma normalize_param_signature_parses u :
  (∃ p, Url.urlparse u = Ok p) → ∃ s, normalize_param_signature u = Ok s.
Proof.
  intros [p Hp]. unfold normalize_param_signature. rewrite Hp. simpl.
  case_match; eauto.
Qed.

Lemma extract_links_spec allowed base hrefs links seen links' seen' :
  extract_links args w allowed base hrefs links seen = Ok (links', seen') →
  links ⊆ links' ∧ seen ⊆ seen'
  ∧ (∀ u, u ∈ links' → u ∈ links ∨ is_valid allowed u = Ok true)
  ∧ (∀ adm, sig_inv (adm ∪ links) seen → sig_inv (adm ∪ links') seen').
Proof.
  revert links seen. induction hrefs as [|href rest IH]; intros links seen; simpl.
  - intros [= -> ->]. set_solver.
  - intros Hx. exc_inv Hx. rename x into abs_url, x0 into ok.
    destruct ok; [|by apply IH].
    destruct (DEDUP_PARAM_SIG args) eqn:Hd.
    + exc_inv Hx. rename x into sig.
      destruct (bool_decide (sig ∈ seen)) eqn:Hs; [by apply IH|].
      apply bool_decide_eq_false in Hs.
      apply IH in Hx as (Hl & Hse & Hval & Hsig).
      split_and!; [set_solver|set_solver| |].
      * intros u [Hu|?]%Hval; [|by right].
        apply elem_of_union in Hu as [->%elem_of_singleton|?]; auto.
      * intros adm (Hc & Hab). apply Hsig.
        destruct (Hab Hd) as [Ha Hb]. split.
        -- intros s [->%elem_of_singleton|Hin]%elem_of_union.
           ++ exists abs_url. split; [set_solver|done].
           ++ destruct (Hc s Hin) as (u & ? & ?). exists u. split; [set_solver|done].
        -- intros _. split.
           ++ intros u Hu.
              destruct (decide (u = abs_url)) as [->|Hne].
              ** exists sig. split; [done|set_solver].
              ** destruct (Ha u) as (s & ? & ?); [set_solver|].
                 exists s. split; [done|set_solver].
           ++ intros u1 u2 s Hu1 Hu2 H1 H2.
              destruct (decide (u1 = abs_url)) as [->|Hn1];
                destruct (decide (u2 = abs_url)) as [->|Hn2]; [done| | |].
              ** destruct (Ha u2) as (s' & Hs2 & ?); [set_solver|]. congruence.
              ** destruct (Ha u1) as (s' & Hs1 & ?); [set_solver|]. congruence.
              ** apply (Hb u1 u2 s); [set_solver|set_solver|done|done].
    + apply IH in Hx as (Hl & Hse & Hval & Hsig).
      split_and!; [set_solver|set_solver| |].
      * intros u [Hu|?]%Hval; [|by right].
        apply elem_of_union in Hu as [->%elem_of_singleton|?]; auto.
      * intros adm (Hc & Hab). apply Hsig. split; [|congruence].
        intros s Hin. destruct (Hc s Hin) as (u & ? & ?).
        exists u. split; [set_solver|done].
Qed.

Lemma print_ok text : print w text = Ok () ↔ markup w text = true.
Proof. unfold print. by destruct (markup w text). Qed.

Lemma print_raise text e :
  print w text = Raise e ↔ markup w text = false ∧ e = MarkupError.
Proof.
  unfold print. destruct (markup w text); [naive_solver|].
  split; [by intros [= <-]|by intros [_ ->]].
Qed.

Lemma log_ok entry st st' :
  log w entry st = Ok st' ↔
  markup w (log_text entry) = true
  ∧ st' = set_console (console st ++ [entry]) st.
Proof.
  unfold log, print. destruct (markup w (log_text entry)); simpl.
  - split; [by intros [= <-]|by intros [_ ->]].
  - split; [done|by intros [? _]].
Qed.

Lemma log_raise entry st e :
  log w entry st = Raise e ↔
  markup w (log_text entry) = false ∧ e = MarkupError.
Proof.
  unfold log, print. destruct (markup w (log_text entry)); simpl.
  - split; [done|by intros [? _]].
  - split; [by intros [= <-]|by intros [_ ->]].
Qed.

(** What [extract] does with a response that is no document. *)
Lemma extract_failed u st entry :
  failure_log (http w u) u = Some entry →
  extract u st = (st' ← log w entry st; Ok (∅, st')).
Proof.
  unfold extract, failure_log.
  destruct (http w u) as [|msg|msg|e|base hrefs]; by intros [= <-].
Qed.

(** [extract] changes the signatures on record and the console only. *)
Lemma extract_spec u st links st' :
  extract u st = Ok (links, st') →
  visited st' = visited st ∧ queue st' = queue st ∧ found st' = found st
  ∧ allowed_domains st' = allowed_domains st
  ∧ visit_log st' = visit_log st
  ∧ seen_param_signatures st ⊆ seen_param_signatures st'
  ∧ (∀ l, l ∈ links → is_valid (allowed_domains st) l = Ok true)
  ∧ (sig_inv (found st) (seen_param_signatures st) →
     sig_inv (found st ∪ links) (seen_param_signatures st')).
Proof.
  unfold extract. destruct (http w u) as [|msg|msg|e|base hrefs]; [..|done|].
  1-3: intros Hx; exc_inv Hx; injection Hx as <- <-;
       apply log_ok in Hx0 as [_ ->];
       simpl; split_and!; try done; try set_solver;
       by rewrite (right_id_L ∅ (∪)).
  intros Hx. exc_inv Hx. destruct x as [links0 seen0].
  injection Hx as <- <-. simpl.
  apply extract_links_spec in Hx0 as (_ & Hse & Hval & Hsig).
  split_and!; try done.
  - intros l [?|?]%Hval; [set_solver|done].
  - intros Hi. apply Hsig. by rewrite (right_id_L ∅ (∪)).
Qed.

(** ** One iteration *)

Lemma set_iter_elem X u : iterates_once → u ∈ set_iter w X ↔ u ∈ X.
Proof. intros Hi. by rewrite (Hi X), elem_of_elements. Qed.

Lemma set_iter_NoDup X : iterates_once → NoDup (set_iter w X).
Proof. intros Hi. rewrite (Hi X). apply NoDup_elements. Qed.

Lemma loop_body_inv st st' :
  loop_body st = Ok st' →
  ∃ u q, queue st = u :: q
    ∧ ((u ∈ visited st ∧ st' = set_queue q st)
       ∨ (u ∉ visited st
          ∧ ∃ links st2,
              (∃ p, Url.urlparse u = Ok p)
              ∧ extract u (entered u q st) = Ok (links, st2)
              ∧ st' = set_found (found st2 ∪ links)
                        (foldl push st2 (set_iter w links)))).
Proof.
  unfold loop_body. destruct (queue st) as [|u q] eqn:Hq; [done|].
  simpl. intros Hb. exists u, q. split; [done|].
  destruct (bool_decide (u ∈ visited st)) eqn:Hv.
  - apply bool_decide_eq_true in Hv. left. by injection Hb as <-.
  - apply bool_decide_eq_false in Hv. right. split; [done|].
    exc_inv Hb. destruct x0 as [links st2]. exc_inv Hb. injection Hb as <-.
    exists links, st2. split_and!; [by eexists|done|].
    by destruct (foldl_push_frame (set_iter w links) st2) as (_ & -> & _).
Qed.

Lemma loop_body_visit st u q p links st2 :
  queue st = u :: q → u ∉ visited st →
  Url.urlparse u = Ok p →
  extract u (entered u q st) = Ok (links, st2) →
  sleep (DELAY args) = Ok () →
  loop_body st
  = Ok (set_found (found st2 ∪ links) (foldl push st2 (set_iter w links))).
Proof.
  intros Hq Hv Hp Hx Hsl. unfold loop_body. rewrite Hq. simpl.
  rewrite bool_decide_eq_false_2 by done. rewrite Hp. simpl.
  unfold entered in Hx. rewrite Hx. simpl. rewrite Hsl. simpl.
  by destruct (foldl_push_frame (set_iter w links) st2) as (_ & -> & _).
Qed.

(** ** The invariant of the main loop *)

Lemma loop_cond_true st :
  loop_cond st = true ↔
  queue st ≠ [] ∧ (Z.of_nat (size (visited st)) < MAX_PAGES args)%Z.
Proof.
  unfold loop_cond. rewrite andb_true_iff, negb_true_iff.
  by rewrite bool_decide_eq_false, bool_decide_eq_true.
Qed.

Lemma step_inv seeds allowed st st' :
  iterates_once → step st st' →
  crawl_inv seeds allowed st → crawl_inv seeds allowed st'.
Proof.
  intros Hi [Hc Hb] I. apply loop_cond_true in Hc as [_ Hlt].
  apply loop_body_inv in Hb as (u & q & Hq & [[Hv ->]|(Hv & links & st2 & _ & Hx & ->)]).
  { exfalso. apply (inv_disjoint _ _ _ _ I u); [rewrite Hq; set_solver|done]. }
  apply extract_spec in Hx as (Hvis & Hqu & Hfo & Hal & Hlog & Hse & Hval & Hsig).
  simpl in *.
  pose proof (foldl_push_frame (set_iter w links) st2) as (Fv & Ff & Fa & Fs & Fl & Fc).
  pose proof (foldl_push_queue (set_iter w links) st2) as Fq.
  rewrite Hvis, Hqu in Fq. rewrite Hvis in Fv. rewrite Hlog in Fl.
  rewrite Hal in Fa. rewrite Hfo in Ff.
  pose proof (inv_queue _ _ _ _ I) as Hnd. rewrite Hq in Hnd.
  apply NoDup_cons in Hnd as [Huq Hndq].
  split; simpl; rewrite ?Fv, ?Fq, ?Fl, ?Fa, ?Ff, ?Fs, ?Hfo.
  - rewrite list_to_set_app_L, <- (inv_visited _ _ _ _ I). set_solver.
  - apply NoDup_app. split_and!; [apply I| |apply NoDup_singleton].
    intros x Hx ->%list_elem_of_singleton. apply Hv.
    rewrite (inv_visited _ _ _ _ I). by apply elem_of_list_to_set.
  - by apply pushed_NoDup.
  - intros x [Hx|Hx]%elem_of_app.
    + assert (x ∉ visited st) by (apply I; rewrite Hq; set_solver).
      set_solver.
    + by apply pushed_elem in Hx as (_ & ? & _).
  - apply I.
  - intros x [[Hx|Hx]%elem_of_app|Hx].
    + destruct (inv_origin _ _ _ _ I x); [left; rewrite Hq; set_solver| |];
        set_solver.
    + apply pushed_elem in Hx as (Hx & _). apply set_iter_elem in Hx; [|done].
      set_solver.
    + apply elem_of_union in Hx as [->%elem_of_singleton|Hx].
      * destruct (inv_origin _ _ _ _ I u); [left; rewrite Hq; set_solver| |];
          set_solver.
      * destruct (inv_origin _ _ _ _ I x); [by right| |]; set_solver.
  - intros x [Hx|Hx]%elem_of_union; [by apply I|].
    rewrite <- (inv_allowed _ _ _ _ I). by apply Hval.
  - intros x Hx. destruct (inv_seeds _ _ _ _ I x Hx) as [Hin|Hin].
    + rewrite Hq in Hin. apply elem_of_cons in Hin as [->|Hin]; [set_solver|].
      left. set_solver.
    + set_solver.
  - rewrite size_union by set_solver. rewrite size_singleton. lia.
  - apply Hsig, I.
Qed.

Lemma reachable_inv seeds allowed st0 st :
  iterates_once → reachable st0 st →
  crawl_inv seeds allowed st0 → crawl_inv seeds allowed st.
Proof.
  intros Hi Hr. induction Hr as [|st1 st2 st3 Hs _ IH]; [done|].
  intros I. apply IH. by eapply step_inv.
Qed.

(** ** The seeds *)

Lemma seed_domains_spec us acc allowed :
  seed_domains us acc = Ok allowed →
  acc ⊆ allowed
  ∧ (∀ u, u ∈ us → ∃ p, Url.urlparse u = Ok p ∧ netloc p ∈ allowed)
  ∧ (∀ d, d ∈ allowed →
       d ∈ acc ∨ ∃ u p, u ∈ us ∧ Url.urlparse u = Ok p ∧ netloc p = d).
Proof.
  revert acc. induction us as [|u us IH]; intros acc; simpl.
  - intros [= ->]. split_and!; [done| |by left].
    by intros u ?%elem_of_nil.
  - intros Hs. exc_inv Hs. rename x into p.
    apply IH in Hs as (Hsub & Hall & Hfrom). split_and!.
    + set_solver.
    + intros v [->|Hv]%elem_of_cons; [|by apply Hall].
      exists p. split; [done|set_solver].
    + intros d [[->%elem_of_singleton|?]%elem_of_union|(v & pv & ? & ? & ?)]%Hfrom.
      * right. exists u, p. split; [set_solver|done].
      * by left.
      * right. exists v, pv. split; [set_solver|done].
Qed.

Lemma load_urls_spec st0 :
  load_urls args w = Ok st0 →
  ∃ seeds, seed_urls args = Ok seeds ∧ seeds ≠ ∅
    ∧ st0 = {| visited := ∅; queue := set_iter w seeds; found := ∅;
               allowed_domains := allowed_domains st0;
               seen_param_signatures := ∅; visit_log := []; console := [] |}
    ∧ seed_domains (set_iter w seeds) ∅ = Ok (allowed_domains st0).
Proof.
  unfold load_urls. intros Hl. exc_inv Hl. injection Hl as <-.
  clear Hx x. rename x0 into seeds, Hx0 into Hx.
  exists seeds. split_and!; try done.
  unfold seed_urls in Hx. exc_inv Hx.
  destruct (bool_decide (x = ∅)) eqn:He; [done|].
  apply bool_decide_eq_false in He. by injection Hx as <-.
Qed.

Lemma load_urls_inv st0 seeds :
  iterates_once →
  load_urls args w = Ok st0 → seed_urls args = Ok seeds →
  crawl_inv seeds (allowed_domains st0) st0.
Proof.
  intros Hi Hl Hs.
  apply load_urls_spec in Hl as (seeds' & Hs' & _ & Hst & _).
  assert (seeds' = seeds) as -> by congruence.
  rewrite Hst. split; simpl; try done.
  - apply NoDup_nil_2.
  - by apply set_iter_NoDup.
  - intros u [Hu|Hu]; [|set_solver]. left. by apply set_iter_elem in Hu.
  - intros u Hu. left. by apply set_iter_elem.
  - apply Z.le_max_l.
Qed.

Lemma seeds_parse st0 seeds u :
  iterates_once →
  load_urls args w = Ok st0 → seed_urls args = Ok seeds →
  u ∈ seeds → ∃ p, Url.urlparse u = Ok p ∧ netloc p ∈ allowed_domains st0.
Proof.
  intros Hi Hl Hs Hu.
  apply load_urls_spec in Hl as (seeds' & Hs' & _ & _ & Hd).
  assert (seeds' = seeds) as -> by congruence.
  apply seed_domains_spec in Hd as (_ & Hall & _).
  apply Hall. by apply set_iter_elem.
Qed.

(** Every queued URL was parsed before: line 160 cannot raise. *)
Lemma queued_parse seeds allowed st u :
  (∀ s, s ∈ seeds → ∃ p, Url.urlparse s = Ok p) →
  crawl_inv seeds allowed st → u ∈ queue st → ∃ p, Url.urlparse u = Ok p.
Proof.
  intros Hs I Hu. destruct (inv_origin _ _ _ _ I u) as [?|Hf]; [by left|by apply Hs|].
  apply (inv_scope _ _ _ _ I), is_valid_true in Hf as (p & ? & _). by exists p.
Qed.

(** ** Running the loop *)

Lemma crawl_loop_S fuel st :
  loop_cond st = true →
  crawl_loop (S fuel) st
  = match loop_body st with
    | Ok st' => crawl_loop fuel st'
    | Raise e => Crashed e
    end.
Proof. intros Hc. simpl. by rewrite Hc. Qed.

Lemma crawl_loop_done fuel st :
  loop_cond st = false → crawl_loop fuel st = Finished st.
Proof. intros Hc. destruct fuel; simpl; by rewrite Hc. Qed.

(** More fuel does not change a result. *)
Lemma crawl_loop_mono fuel k st :
  crawl_loop fuel st ≠ OutOfFuel →
  crawl_loop (fuel + k) st = crawl_loop fuel st.
Proof.
  revert st. induction fuel as [|fuel IH]; intros st; simpl.
  - destruct (loop_cond st) eqn:Hc; [done|]. intros _.
    by rewrite crawl_loop_done.
  - destruct (loop_cond st); [|done].
    destruct (loop_body st); [apply IH|done].
Qed.

Lemma crawl_loop_reachable fuel st0 st :
  crawl_loop fuel st0 = Finished st →
  reachable st0 st ∧ loop_cond st = false.
Proof.
  revert st0. induction fuel as [|fuel IH]; intros st0; simpl.
  - destruct (loop_cond st0) eqn:Hc; [done|]. intros [= <-].
    split; [apply rtc_refl|done].
  - destruct (loop_cond st0) eqn:Hc.
    + destruct (loop_body st0) as [st1|] eqn:Hb; [|done].
      intros [Hr Hc']%IH. split; [|done].
      eapply rtc_l; [|exact Hr]. by split.
    + intros [= <-]. split; [apply rtc_refl|done].
Qed.

(** The loop ends: the pair of the budget left and the length of the
    queue decreases in the lexicographic order. *)
Lemma crawl_loop_ends_aux a :
  ∀ b st, (budget_left st ≤ a)%nat → (length (queue st) ≤ b)%nat →
          ∃ fuel, crawl_loop fuel st ≠ OutOfFuel.
Proof.
  induction a as [|a IHa]; intros b; induction b as [|b IHb];
    intros st Ha Hb; unfold budget_left in *;
    destruct (loop_cond st) eqn:Hc;
    try (exists 0; by rewrite crawl_loop_done);
    pose proof Hc as Hc'; apply loop_cond_true in Hc' as [Hne Hlt];
    try lia; try (destruct (queue st); simpl in *; [done|lia]).
  destruct (loop_body st) as [st'|e] eqn:Hbody.
  - pose proof Hbody as Hbody'.
    apply loop_body_inv in Hbody'
      as (u & q & Hq & [[Hv ->]|(Hv & links & st2 & _ & Hx & ->)]).
    + destruct (IHb (set_queue q st)) as [fuel Hf]; simpl; [lia| |].
      { rewrite Hq in Hb. simpl in Hb. lia. }
      exists (S fuel). by rewrite crawl_loop_S, Hbody.
    + apply extract_spec in Hx as (Hvis & _).
      pose proof (foldl_push_frame (set_iter w links) st2) as (Fv & _).
      set (st' := set_found _ _) in *.
      destruct (IHa (length (queue st')) st') as [fuel Hf]; [|done|].
      { subst st'. simpl. rewrite Fv, Hvis. simpl.
        rewrite size_union by set_solver. rewrite size_singleton. lia. }
      exists (S fuel). by rewrite crawl_loop_S, Hbody.
  - exists 1. by rewrite crawl_loop_S, Hbody.
Qed.

Lemma crawl_loop_ends st : ∃ fuel, crawl_loop fuel st ≠ OutOfFuel.
Proof. by eapply crawl_loop_ends_aux. Qed.

(** The visit count never passes the budget, whatever the sets hold. *)
Lemma step_budget st st' :
  step st st' →
  (Z.of_nat (size (visited st)) ≤ Z.max 0 (MAX_PAGES args))%Z →
  (Z.of_nat (size (visited st')) ≤ Z.max 0 (MAX_PAGES args))%Z.
Proof.
  intros [Hc Hb] Hle. apply loop_cond_true in Hc as [_ Hlt].
  apply loop_body_inv in Hb
    as (u & q & Hq & [[Hv ->]|(Hv & links & st2 & _ & Hx & ->)]); [done|].
  apply extract_spec in Hx as (Hvis & _).
  destruct (foldl_push_frame (set_iter w links) st2) as (Fv & _).
  simpl in *. rewrite Fv, Hvis.
  rewrite size_union by set_solver. rewrite size_singleton. lia.
Qed.

Lemma entered_budget st u q :
  loop_cond st = true → u ∉ visited st →
  (Z.of_nat (size (visited (entered u q st))) ≤ MAX_PAGES args)%Z.
Proof.
  intros [_ Hlt]%loop_cond_true Hv. simpl.
  rewrite size_union by set_solver. rewrite size_singleton. lia.
Qed.

(** The visited set only grows. *)
Lemma step_visited_mono st st' : step st st' → visited st ⊆ visited st'.
Proof.
  intros [_ Hb].
  apply loop_body_inv in Hb
    as (u & q & Hq & [[Hv ->]|(Hv & links & st2 & _ & Hx & ->)]); [done|].
  apply extract_spec in Hx as (Hvis & _).
  destruct (foldl_push_frame (set_iter w links) st2) as (Fv & _).
  simpl in *. rewrite Fv, Hvis. set_solver.
Qed.

Lemma reachable_visited_mono st st' :
  reachable st st' → visited st ⊆ visited st'.
Proof.
  induction 1 as [|st1 st2 st3 Hs _ IH]; [done|].
  apply step_visited_mono in Hs. set_solver.
Qed.

Lemma reachable_trans st1 st2 st3 :
  reachable st1 st2 → reachable st2 st3 → reachable st1 st3.
Proof. apply rtc_trans. Qed.

Lemma push_known st link :
  link ∈ visited st ∨ link ∈ queue st → push st link = st.
Proof.
  intros Hk. unfold push.
  destruct (bool_decide (link ∉ visited st)) eqn:Hv;
    destruct (bool_decide (link ∉ queue st)) eqn:Hq; try done.
  apply bool_decide_eq_true in Hv, Hq. tauto.
Qed.

Lemma set_iter_empty : iterates_once → set_iter w ∅ = [].
Proof.
  intros Hi. apply Permutation_nil_r. by rewrite (Hi ∅), elements_empty.
Qed.

Lemma set_iter_singleton x : iterates_once → set_iter w {[x]} = [x].
Proof.
  intros Hi. apply Permutation_singleton_r.
  by rewrite (Hi {[x]}), elements_singleton.
Qed.

Lemma set_found_same st : set_found (found st) st = st.
Proof. by destruct st. Qed.

(** A failed fetch or parse whose line Rich renders: no link, no
    signature, one console line. *)
Lemma extract_failure u st entry :
  failure_log (http w u) u = Some entry →
  markup w (log_text entry) = true →
  extract u st = Ok (∅, set_console (console st ++ [entry]) st).
Proof.
  intros Hf Hm. rewrite (extract_failed u st entry Hf).
  unfold log, print. by rewrite Hm.
Qed.

(** A failed fetch or parse whose line Rich rejects. *)
Lemma extract_failure_raise u st entry :
  failure_log (http w u) u = Some entry →
  markup w (log_text entry) = false →
  extract u st = Raise MarkupError.
Proof.
  intros Hf Hm. rewrite (extract_failed u st entry Hf).
  unfold log, print. by rewrite Hm.
Qed.

Lemma loop_body_failure st u q p entry :
  iterates_once →
  queue st = u :: q → u ∉ visited st → Url.urlparse u = Ok p →
  failure_log (http w u) u = Some entry →
  markup w (log_text entry) = true →
  sleep (DELAY args) = Ok () →
  loop_body st = Ok (set_console (console st ++ [entry]) (entered u q st)).
Proof.
  intros Hi Hq Hv Hp Hf Hm Hsl.
  erewrite loop_body_visit; [|done|done|done|by apply extract_failure|done].
  rewrite set_iter_empty by done. simpl.
  by rewrite (right_id_L ∅ (∪)).
Qed.

(** What [sleep] does. *)
Lemma sleep_ok secs :
  sleep secs = Ok () ↔ (0 ≤ secs ≤ 9223372036)%Z.
Proof.
  unfold sleep.
  destruct (Z.ltb_spec secs (-9223372036)), (Z.ltb_spec 9223372036 secs),
    (Z.ltb_spec secs 0); simpl; split; try done; lia.
Qed.

Lemma sleep_raise secs e :
  sleep secs = Raise e ↔
  (e = OverflowError ∧ (secs < -9223372036 ∨ 9223372036 < secs)%Z)
  ∨ (e = ValueError ∧ (-9223372036 ≤ secs < 0)%Z).
Proof.
  unfold sleep.
  destruct (Z.ltb_spec secs (-9223372036)), (Z.ltb_spec 9223372036 secs),
    (Z.ltb_spec secs 0); simpl; split;
    try (intros [= <-]); try (intros [[-> ?]|[-> ?]]);
    try done; try lia; try (left; split; [done|lia]);
    try (right; split; [done|lia]).
Qed.

(** An iteration that goes through has slept. *)
Lemma loop_body_slept st st' :
  loop_body st = Ok st' → queue st ≠ [] →
  (∀ u q, queue st = u :: q → u ∉ visited st) →
  sleep (DELAY args) = Ok ().
Proof.
  unfold loop_body. destruct (queue st) as [|u q] eqn:Hq; [done|].
  simpl. intros Hb _ Hv.
  rewrite bool_decide_eq_false_2 in Hb by by apply (Hv u q).
  exc_inv Hb. destruct x0 as [links st2]. exc_inv Hb. by destruct x0.
Qed.

(** Sets of at most two members: the orders Python may take. *)
Lemma set_iter_short X l :
  iterates_once → elements X = l → (length l ≤ 1)%nat → set_iter w X = l.
Proof.
  intros Hi <- Hl. specialize (Hi X).
  destruct (elements X) as [|x [|y r]]; simpl in Hl; [| |lia].
  - by apply Permutation_nil_r.
  - by apply Permutation_singleton_r.
Qed.

Lemma set_iter_pair X x y :
  iterates_once → elements X = [x; y] →
  set_iter w X = [x; y] ∨ set_iter w X = [y; x].
Proof.
  intros Hi HX. specialize (Hi X). rewrite HX in Hi. symmetry in Hi.
  by apply Permutation.Permutation_length_2_inv in Hi.
Qed.

(** One visit, with every ingredient given: the form in which the runs
    of the examples are replayed. *)
Lemma crawl_loop_visit fuel st u q links st2 l st' :
  loop_cond st = true → queue st = u :: q → u ∉ visited st → parses u →
  extract u (entered u q st) = Ok (links, st2) →
  sleep (DELAY args) = Ok () →
  set_iter w links = l →
  set_found (found st2 ∪ links) (foldl push st2 l) = st' →
  crawl_loop (S fuel) st = crawl_loop fuel st'.
Proof.
  intros Hc Hq Hv Hp Hx Hsl <- <-. rewrite crawl_loop_S by done.
  unfold parses in Hp. destruct (Url.urlparse u) as [p|] eqn:Hpu; [|done].
  by erewrite loop_body_visit.
Qed.

Lemma load_urls_single seed p :
  iterates_once →
  arg_url args = Some seed → arg_list args = None → truthy seed = true →
  Url.urlparse seed = Ok p →
  load_urls args w = Ok (seeded seed (netloc p)).
Proof.
  intros Hi Hu Hl Ht Hp. unfold load_urls, seed_urls.
  rewrite Hu, Hl, Ht. simpl.
  rewrite bool_decide_eq_false_2 by set_solver. simpl.
  rewrite set_iter_singleton by done. simpl. rewrite Hp. simpl.
  by rewrite (right_id_L ∅ (∪)).
Qed.

(** The queue is first in, first out: a visit pops the head and appends
    the new links behind everything that was queued. *)
Lemma step_fifo st st' u q :
  iterates_once → step st st' → queue st = u :: q → u ∉ visited st →
  ∃ links st2,
    extract u (entered u q st) = Ok (links, st2)
    ∧ visit_log st' = visit_log st ++ [u]
    ∧ queue st'
      = q ++ filter (λ l, l ∉ {[u]} ∪ visited st ∧ l ∉ q) (set_iter w links).
Proof.
  intros Hi [_ Hb] Hq Hv.
  apply loop_body_inv in Hb
    as (u' & q' & Hq' & [[Hv' ->]|(_ & links & st2 & _ & Hx & ->)]).
  { rewrite Hq in Hq'. injection Hq' as <- <-. done. }
  rewrite Hq in Hq'. injection Hq' as <- <-.
  exists links, st2. split; [done|].
  apply extract_spec in Hx as (Hvis & Hqu & _ & _ & Hlog & _).
  destruct (foldl_push_frame (set_iter w links) st2) as (_ & _ & _ & _ & Fl & _).
  simpl in *. rewrite Fl, Hlog. split; [done|].
  rewrite foldl_push_queue, Hqu, Hvis. f_equal.
  apply pushed_filter. by apply set_iter_NoDup.
Qed.

(** The iteration on a URL that is not visited: it raises what
    [extract] or [time.sleep] raises, and goes through otherwise. *)
Lemma loop_body_cases st u q p :
  queue st = u :: q → u ∉ visited st → Url.urlparse u = Ok p →
  match extract u (entered u q st) with
  | Raise e => loop_body st = Raise e
  | Ok (links, st2) =>
      match sleep (DELAY args) with
      | Raise e => loop_body st = Raise e
      | Ok _ =>
          loop_body st
          = Ok (set_found (found st2 ∪ links)
                  (foldl push st2 (set_iter w links)))
      end
  end.
Proof.
  intros Hq Hv Hp.
  destruct (extract u (entered u q st)) as [[links st2]|e] eqn:Hx.
  - destruct (sleep (DELAY args)) as [[]|e] eqn:Hsl.
    + by apply (loop_body_visit st u q p).
    + unfold loop_body. rewrite Hq. simpl.
      rewrite bool_decide_eq_false_2 by done. rewrite Hp. simpl.
      unfold entered in Hx. rewrite Hx. simpl. by rewrite Hsl.
  - unfold loop_body. rewrite Hq. simpl.
    rewrite bool_decide_eq_false_2 by done. rewrite Hp. simpl.
    unfold entered in Hx. by rewrite Hx.
Qed.

(** Printing the texts of a list: Rich has to render each. *)
Lemma print_all_ok texts :
  print_all w texts = Ok () ↔ ∀ text, text ∈ texts → markup w text = true.
Proof.
  induction texts as [|text rest IH]; simpl.
  - split; [by intros _ ? ?%elem_of_nil|done].
  - unfold print at 1. destruct (markup w text) eqn:Hm; simpl.
    + rewrite IH. split.
      * intros Hall t [->|?]%elem_of_cons; auto.
      * intros Hall t Ht. apply Hall. by right.
    + split; [done|]. intros Hall.
      rewrite Hall in Hm by (by left). done.
Qed.

Lemma print_all_raise texts e :
  print_all w texts = Raise e ↔
  e = MarkupError ∧ ∃ text, text ∈ texts ∧ markup w text = false.
Proof.
  induction texts as [|text rest IH]; simpl.
  - split; [done|]. by intros [_ (? & ?%elem_of_nil & _)].
  - unfold print at 1. destruct (markup w text) eqn:Hm; simpl.
    + rewrite IH. split.
      * intros [-> (t & Ht & Hf)]. split; [done|]. exists t. split; [by right|done].
      * intros [-> (t & [->|Ht]%elem_of_cons & Hf)]; [congruence|].
        split; [done|]. by exists t.
    + split.
      * intros [= <-]. split; [done|]. exists text. split; [by left|done].
      * by intros [-> _].
Qed.


End Frontier.

(** [extract] sees the world through [http] and [urljoin], and through
    [markup] on the line of a failure. *)
Lemma extract_links_ext `{UrlOracle} args w w' allowed base hrefs links seen :
  (∀ b r, urljoin w b r = urljoin w' b r) →
  extract_links args w allowed base hrefs links seen
  = extract_links args w' allowed base hrefs links seen.
Proof.
  intros Hj. revert links seen.
  induction hrefs as [|href rest IH]; intros links seen; simpl; [done|].
  rewrite Hj. destruct (urljoin w' base href) as [abs_url|]; simpl; [|done].
  destruct (is_valid allowed abs_url) as [[]|]; simpl; [|done|done].
  destruct (DEDUP_PARAM_SIG args); [|done].
  destruct (normalize_param_signature abs_url) as [sig|]; simpl; [|done].
  by destruct (bool_decide (sig ∈ seen)).
Qed.

Lemma extract_ext `{UrlOracle} args w w' u st :
  (∀ v, http w v = http w' v) →
  (∀ b r, urljoin w b r = urljoin w' b r) →
  (∀ entry, failure_log (http w' u) u = Some entry →
            markup w (log_text entry) = markup w' (log_text entry)) →
  extract args w u st = extract args w' u st.
Proof.
  intros Hh Hj Hm. unfold extract. rewrite Hh.
  destruct (http w' u) as [|msg|msg|e|base hrefs]; try done.
  1-3: unfold log, print; by rewrite (Hm _ eq_refl).
  by rewrite (extract_links_ext args w w').
Qed.

(** * The claims *)

(** Replaying a run: [visit] performs one iteration from an explicit
    state to an explicit state, checking each ingredient by computation
    in the concrete world [w0] that agrees with the world at hand. *)
Ltac notin := refine (bool_decide_unpack _ _); vm_compute; exact I.

Ltac iteration Hi :=
  first
    [ eassumption
    | apply set_iter_short; [exact Hi | vm_compute; reflexivity | simpl; lia] ].

Ltac no_failure :=
  match goal with
  | Hf : failure_log _ _ = Some _ |- _ => vm_compute in Hf; discriminate Hf
  end.

Ltac visit w0 Hi Hh Hj u q links st2 l st' :=
  rewrite (crawl_loop_visit _ _ _ _ u q links st2 l st');
  [ | vm_compute; reflexivity | reflexivity | notin | vm_compute; exact I
    | rewrite (extract_ext _ _ w0)
        by (intros; first [apply Hh | apply Hj | no_failure]);
      vm_compute; reflexivity
    | vm_compute; reflexivity
    | iteration Hi
    | vm_compute; reflexivity ].

Ltac finished :=
  rewrite crawl_loop_done by (vm_compute; reflexivity);
  eexists; split; [reflexivity|].

Lemma world_timeout_iterates_once : iterates_once world_timeout.
Proof. by intros X. Qed.

(** ** C1: the budget *)

(** C1, as stated, fails for a negative [-d]: the visited set is empty,
    and 0 is not at most -1. *)
Lemma budget_bound_negative_depth :
  ∃ st0,
    @load_urls strict_oracle (cli "http://h/" (-1) false) world_timeout = Ok st0
    ∧ ¬ (Z.of_nat (size (visited st0))
         ≤ MAX_PAGES (cli "http://h/" (-1) false))%Z.
Proof. eexists. split; [vm_compute; reflexivity|]. vm_compute. by intros []. Qed.

(** C1 (amended): at every loop head of every run the visited set holds
    at most [max 0 MAX_PAGES] URLs, so at most [MAX_PAGES] when that is
    not negative; right after [visited.add] it holds at most [MAX_PAGES];
    and the loop ends, with the queue empty or the budget used up unless
    an exception ended the run. *)
Theorem budget_bound `{UrlOracle} args w st0 :
  load_urls args w = Ok st0 →
  (∀ st, reachable args w st0 st →
     (Z.of_nat (size (visited st)) ≤ Z.max 0 (MAX_PAGES args))%Z
     ∧ ∀ u q, loop_cond args st = true → queue st = u :: q → u ∉ visited st →
         (Z.of_nat (size (visited (entered u q st))) ≤ MAX_PAGES args)%Z)
  ∧ ∃ fuel,
      match crawl_loop args w fuel st0 with
      | Finished st =>
          reachable args w st0 st
          ∧ (queue st = [] ∨ (MAX_PAGES args ≤ Z.of_nat (size (visited st)))%Z)
      | Crashed _ => True
      | OutOfFuel => False
      end.
Proof.
  intros Hl. split.
  - intros st Hr. split.
    + assert (Z.of_nat (size (visited st0)) ≤ Z.max 0 (MAX_PAGES args))%Z as Hb.
      { apply load_urls_spec in Hl as (? & _ & _ & -> & _). apply Z.le_max_l. }
      clear Hl. induction Hr as [st|st1 st2 st3 Hs _ IH]; [done|].
      apply IH. by eapply step_budget.
    + intros u q Hc _ Hv. by apply entered_budget.
  - destruct (crawl_loop_ends args w st0) as [fuel Hf].
    exists fuel.
    destruct (crawl_loop _ _ fuel st0) as [st| |] eqn:Hr; [|done|done].
    apply crawl_loop_reachable in Hr as [Hr Hc]. split; [done|].
    unfold loop_cond in Hc. apply andb_false_iff in Hc as [Hc|Hc].
    + left. apply negb_false_iff in Hc. by apply bool_decide_eq_true in Hc.
    + right. apply bool_decide_eq_false in Hc. lia.
Qed.

(** On the site A -> {B, C}, B -> {D} with a budget of two pages the
    loop ends after two visits, B still in the queue. *)
Lemma budget_bound_witness :
  @load_urls strict_oracle (cli "http://h/a" 2 false) world_bfs
  = Ok (seeded "http://h/a" "h")
  ∧ @crawl_loop strict_oracle (cli "http://h/a" 2 false) world_bfs 2
      (seeded "http://h/a" "h")
    = Finished (st_of ["h"] ["http://h/a"; "http://h/c"] ["http://h/b"]
                  ["http://h/b"; "http://h/c"] []
                  ["http://h/a"; "http://h/c"])
  ∧ ∀ st, @reachable strict_oracle (cli "http://h/a" 2 false) world_bfs
            (seeded "http://h/a" "h") st →
          (Z.of_nat (size (visited st)) ≤ 2)%Z.
Proof.
  split; [vm_compute; reflexivity|].
  split; [vm_compute; reflexivity|]. intros st Hr.
  refine (proj1 (proj1 (@budget_bound strict_oracle (cli "http://h/a" 2 false)
                          world_bfs
                          (seeded "http://h/a" "h") _) st Hr)).
  vm_compute; reflexivity.
Defined.

(** ** C2: no duplicates *)

(** C2: in every run, the sequence of visits has no repetition and the
    visited set is exactly its content; the queue never holds a URL
    twice, nor a visited URL; pushing a visited or queued URL changes
    nothing; and a URL once visited stays visited and never returns to
    the queue. *)
Theorem no_duplicate_visits `{UrlOracle} args w st0 :
  iterates_once w →
  load_urls args w = Ok st0 →
  ∀ st, reachable args w st0 st →
    NoDup (visit_log st)
    ∧ visited st = list_to_set (visit_log st)
    ∧ NoDup (queue st)
    ∧ (∀ u, u ∈ queue st → u ∉ visited st)
    ∧ (∀ link, link ∈ visited st ∨ link ∈ queue st → push st link = st)
    ∧ ∀ st' u, reachable args w st st' →
        u ∈ visited st → u ∈ visited st' ∧ u ∉ queue st'.
Proof.
  intros Hi Hl st Hr.
  destruct (load_urls_spec _ _ _ Hl) as (seeds & Hs & _).
  pose proof (load_urls_inv _ _ _ _ Hi Hl Hs) as I0.
  pose proof (reachable_inv _ _ _ _ _ _ Hi Hr I0) as I.
  split_and!; try apply I.
  - intros link Hk. by apply push_known.
  - intros st' u Hr' Hu.
    pose proof (reachable_inv _ _ _ _ _ _ Hi Hr' I) as I'.
    assert (u ∈ visited st') as Hu'.
    { by apply (reachable_visited_mono _ _ _ _ Hr'). }
    split; [done|]. intros Hq. by apply (inv_disjoint _ _ _ _ I' u).
Qed.

Lemma world_bfs_iterates_once : iterates_once world_bfs.
Proof. by intros X. Qed.

(** On the site A -> {B, C}, B -> {D}: the state after the visit of A,
    with C and B queued, is reached; in every state reached the visits
    and the queue hold no URL twice, and pushing A again changes
    nothing once A is visited. *)
Lemma no_duplicate_visits_witness :
  iterates_once world_bfs
  ∧ @load_urls strict_oracle (cli "http://h/a" 4 false) world_bfs
    = Ok (seeded "http://h/a" "h")
  ∧ @reachable strict_oracle (cli "http://h/a" 4 false) world_bfs
      (seeded "http://h/a" "h")
      (st_of ["h"] ["http://h/a"] ["http://h/c"; "http://h/b"]
         ["http://h/b"; "http://h/c"] [] ["http://h/a"])
  ∧ ∀ st, @reachable strict_oracle (cli "http://h/a" 4 false) world_bfs
            (seeded "http://h/a" "h") st →
          NoDup (visit_log st) ∧ NoDup (queue st)
          ∧ (∀ u, u ∈ queue st → u ∉ visited st)
          ∧ ("http://h/a" ∈ visited st → push st "http://h/a" = st).
Proof.
  split; [apply world_bfs_iterates_once|].
  split; [vm_compute; reflexivity|].
  split; [apply rtc_once; split; vm_compute; reflexivity|].
  intros st Hr.
  destruct (@no_duplicate_visits strict_oracle (cli "http://h/a" 4 false)
              world_bfs (seeded "http://h/a" "h")
              world_bfs_iterates_once eq_refl st Hr)
    as (Hl & _ & Hq & Hd & Hp & _).
  split; [exact Hl|]. split; [exact Hq|]. split; [exact Hd|].
  intros Hv. apply Hp. left. exact Hv.
Defined.

(** ** C3: breadth first *)

(** C3: the queue is first in, first out: a visit pops the head of the
    queue and appends the links extracted from that page, those neither
    visited nor queued, behind every URL queued before.  On the graph
    A -> {B, C}, B -> {D} with seed A and budget 4, whatever the order in
    which Python iterates over sets and with or without
    [--dedup-params], the visits are A, B, C, D or A, C, B, D. *)
Theorem bfs_order `{UrlOracle} w :
  iterates_once w →
  (∀ args st st' u q,
     step args w st st' → queue st = u :: q → u ∉ visited st →
     ∃ links st2,
       extract args w u (entered u q st) = Ok (links, st2)
       ∧ visit_log st' = visit_log st ++ [u]
       ∧ queue st'
         = q ++ filter (λ l, l ∉ {[u]} ∪ visited st ∧ l ∉ q) (set_iter w links))
  ∧ ((∀ u, http w u = web_bfs u) → (∀ b r, urljoin w b r = Ok r) →
     ∀ dedup, ∃ st,
       main (cli "http://h/a" 4 dedup) w 4 = Finished st
       ∧ (visit_log st = ["http://h/a"; "http://h/b"; "http://h/c"; "http://h/d"]
          ∨ visit_log st
            = ["http://h/a"; "http://h/c"; "http://h/b"; "http://h/d"])).
Proof.
  intros Hi. split.
  { intros args st st' u q. by apply step_fifo. }
  intros Hh Hj dedup.
  set (A := "http://h/a"). set (B := "http://h/b").
  set (C := "http://h/c"). set (D := "http://h/d").
  unfold main.
  erewrite (load_urls_single (cli A 4 dedup) w A);
    [|exact Hi|reflexivity|reflexivity|reflexivity|vm_compute; reflexivity].
  replace (seeded A _) with (st_of ["h"] [] [A] [] [] [])
    by (vm_compute; reflexivity).
  destruct (set_iter_pair w (list_to_set [B; C]) C B Hi) as [Hbc|Hbc];
    [vm_compute; reflexivity|..]; destruct dedup.
  - visit world_bfs Hi Hh Hj A (@nil string) (list_to_set [B; C] : gset string)
      (st_of ["h"] [A] [] [] ["/b"; "/c"] [A]) [C; B]
      (st_of ["h"] [A] [C; B] [B; C] ["/b"; "/c"] [A]).
    visit world_bfs Hi Hh Hj C [B] (list_to_set [] : gset string)
      (st_of ["h"] [A; C] [B] [B; C] ["/b"; "/c"] [A; C]) (@nil string)
      (st_of ["h"] [A; C] [B] [B; C] ["/b"; "/c"] [A; C]).
    visit world_bfs Hi Hh Hj B (@nil string) (list_to_set [D] : gset string)
      (st_of ["h"] [A; C; B] [] [B; C] ["/b"; "/c"; "/d"] [A; C; B]) [D]
      (st_of ["h"] [A; C; B] [D] [B; C; D] ["/b"; "/c"; "/d"] [A; C; B]).
    visit world_bfs Hi Hh Hj D (@nil string) (list_to_set [] : gset string)
      (st_of ["h"] [A; C; B; D] [] [B; C; D] ["/b"; "/c"; "/d"] [A; C; B; D])
      (@nil string)
      (st_of ["h"] [A; C; B; D] [] [B; C; D] ["/b"; "/c"; "/d"] [A; C; B; D]).
    finished. by right.
  - visit world_bfs Hi Hh Hj A (@nil string) (list_to_set [B; C] : gset string)
      (st_of ["h"] [A] [] [] [] [A]) [C; B]
      (st_of ["h"] [A] [C; B] [B; C] [] [A]).
    visit world_bfs Hi Hh Hj C [B] (list_to_set [] : gset string)
      (st_of ["h"] [A; C] [B] [B; C] [] [A; C]) (@nil string)
      (st_of ["h"] [A; C] [B] [B; C] [] [A; C]).
    visit world_bfs Hi Hh Hj B (@nil string) (list_to_set [D] : gset string)
      (st_of ["h"] [A; C; B] [] [B; C] [] [A; C; B]) [D]
      (st_of ["h"] [A; C; B] [D] [B; C; D] [] [A; C; B]).
    visit world_bfs Hi Hh Hj D (@nil string) (list_to_set [] : gset string)
      (st_of ["h"] [A; C; B; D] [] [B; C; D] [] [A; C; B; D]) (@nil string)
      (st_of ["h"] [A; C; B; D] [] [B; C; D] [] [A; C; B; D]).
    finished. by right.
  - visit world_bfs Hi Hh Hj A (@nil string) (list_to_set [B; C] : gset string)
      (st_of ["h"] [A] [] [] ["/b"; "/c"] [A]) [B; C]
      (st_of ["h"] [A] [B; C] [B; C] ["/b"; "/c"] [A]).
    visit world_bfs Hi Hh Hj B [C] (list_to_set [D] : gset string)
      (st_of ["h"] [A; B] [C] [B; C] ["/b"; "/c"; "/d"] [A; B]) [D]
      (st_of ["h"] [A; B] [C; D] [B; C; D] ["/b"; "/c"; "/d"] [A; B]).
    visit world_bfs Hi Hh Hj C [D] (list_to_set [] : gset string)
      (st_of ["h"] [A; B; C] [D] [B; C; D] ["/b"; "/c"; "/d"] [A; B; C])
      (@nil string)
      (st_of ["h"] [A; B; C] [D] [B; C; D] ["/b"; "/c"; "/d"] [A; B; C]).
    visit world_bfs Hi Hh Hj D (@nil string) (list_to_set [] : gset string)
      (st_of ["h"] [A; B; C; D] [] [B; C; D] ["/b"; "/c"; "/d"] [A; B; C; D])
      (@nil string)
      (st_of ["h"] [A; B; C; D] [] [B; C; D] ["/b"; "/c"; "/d"] [A; B; C; D]).
    finished. by left.
  - visit world_bfs Hi Hh Hj A (@nil string) (list_to_set [B; C] : gset string)
      (st_of ["h"] [A] [] [] [] [A]) [B; C]
      (st_of ["h"] [A] [B; C] [B; C] [] [A]).
    visit world_bfs Hi Hh Hj B [C] (list_to_set [D] : gset string)
      (st_of ["h"] [A; B] [C] [B; C] [] [A; B]) [D]
      (st_of ["h"] [A; B] [C; D] [B; C; D] [] [A; B]).
    visit world_bfs Hi Hh Hj C [D] (list_to_set [] : gset string)
      (st_of ["h"] [A; B; C] [D] [B; C; D] [] [A; B; C]) (@nil string)
      (st_of ["h"] [A; B; C] [D] [B; C; D] [] [A; B; C]).
    visit world_bfs Hi Hh Hj D (@nil string) (list_to_set [] : gset string)
      (st_of ["h"] [A; B; C; D] [] [B; C; D] [] [A; B; C; D]) (@nil string)
      (st_of ["h"] [A; B; C; D] [] [B; C; D] [] [A; B; C; D]).
    finished. by left.
Qed.

Lemma bfs_order_witness :
  iterates_once world_bfs
  ∧ (∀ u, http world_bfs u = web_bfs u)
  ∧ (∀ b r, urljoin world_bfs b r = Ok r)
  ∧ ∃ st, @main strict_oracle (cli "http://h/a" 4 false) world_bfs 4 = Finished st
          ∧ (visit_log st
             = ["http://h/a"; "http://h/b"; "http://h/c"; "http://h/d"]
             ∨ visit_log st
               = ["http://h/a"; "http://h/c"; "http://h/b"; "http://h/d"]).
Proof.
  split; [apply world_bfs_iterates_once|].
  split; [done|]. split; [done|].
  exact (proj2 (@bfs_order strict_oracle world_bfs world_bfs_iterates_once)
           (λ _, eq_refl) (λ _ _, eq_refl) false).
Defined.

(** ** C4: the scope *)

(** C4: the allowed domains are the netlocs of the seeds and never
    change; every URL ever extracted into [found] passed [is_valid]: its
    scheme is http or https and its netloc is an allowed domain; and
    every URL that is visited or queued is a seed or such a link. *)
Theorem scope_invariant `{UrlOracle} args w st0 seeds :
  iterates_once w →
  load_urls args w = Ok st0 →
  seed_urls args = Ok seeds →
  (∀ d, d ∈ allowed_domains st0 ↔
        ∃ u p, u ∈ seeds ∧ Url.urlparse u = Ok p ∧ netloc p = d)
  ∧ ∀ st, reachable args w st0 st →
      allowed_domains st = allowed_domains st0
      ∧ (∀ u, u ∈ found st →
           ∃ p, Url.urlparse u = Ok p ∧ scheme p ∈ ["http"; "https"]
                ∧ netloc p ∈ allowed_domains st0)
      ∧ (∀ u, u ∈ visited st ∪ found st ∨ u ∈ queue st →
           u ∈ seeds
           ∨ ∃ p, Url.urlparse u = Ok p ∧ scheme p ∈ ["http"; "https"]
                  ∧ netloc p ∈ allowed_domains st0).
Proof.
  intros Hi Hl Hs. split.
  - destruct (load_urls_spec _ _ _ Hl) as (seeds' & Hs' & _ & _ & Hd).
    assert (seeds' = seeds) as -> by congruence.
    apply seed_domains_spec in Hd as (_ & Hall & Hfrom).
    intros d. split.
    + intros [?|(u & p & Hu & ? & ?)]%Hfrom; [set_solver|].
      exists u, p. split; [|done]. by apply (set_iter_elem w seeds u Hi) in Hu.
    + intros (u & p & Hu & Hp & <-).
      destruct (Hall u) as (p' & Hp' & ?); [by apply set_iter_elem|].
      congruence.
  - intros st Hr.
    pose proof (load_urls_inv _ _ _ _ Hi Hl Hs) as I0.
    pose proof (reachable_inv _ _ _ _ _ _ Hi Hr I0) as I.
    assert (∀ u, u ∈ found st →
              ∃ p, Url.urlparse u = Ok p ∧ scheme p ∈ ["http"; "https"]
                   ∧ netloc p ∈ allowed_domains st0) as Hf.
    { intros u Hu. by apply is_valid_true, (inv_scope _ _ _ _ I). }
    split_and!; [apply I|done|].
    intros u [[Hu|Hu]%elem_of_union|Hu]; [|right; by apply Hf|].
    + destruct (inv_origin _ _ _ _ I u) as [?|?]; [by right|by left|].
      right; by apply Hf.
    + destruct (inv_origin _ _ _ _ I u) as [?|?]; [by left|by left|].
      right; by apply Hf.
Qed.

(** On the site A -> {B, C}, B -> {D}: after the visit of A the links B
    and C are found; each has scheme http or https and its netloc among
    the allowed domains, and whatever is visited, found or queued is
    the seed A or such a link. *)
Lemma scope_invariant_witness :
  iterates_once world_bfs
  ∧ @load_urls strict_oracle (cli "http://h/a" 4 false) world_bfs
    = Ok (seeded "http://h/a" "h")
  ∧ @seed_urls (cli "http://h/a" 4 false) = Ok {["http://h/a"]}
  ∧ @reachable strict_oracle (cli "http://h/a" 4 false) world_bfs
      (seeded "http://h/a" "h")
      (st_of ["h"] ["http://h/a"] ["http://h/c"; "http://h/b"]
         ["http://h/b"; "http://h/c"] [] ["http://h/a"])
  ∧ ∀ u, u ∈ ({["http://h/b"; "http://h/c"]} : gset string) →
         ∃ p, @Url.urlparse strict_oracle u = Ok p
              ∧ scheme p ∈ ["http"; "https"]
              ∧ netloc p ∈ ({["h"]} : gset string).
Proof.
  assert (@reachable strict_oracle (cli "http://h/a" 4 false) world_bfs
            (seeded "http://h/a" "h")
            (st_of ["h"] ["http://h/a"] ["http://h/c"; "http://h/b"]
               ["http://h/b"; "http://h/c"] [] ["http://h/a"])) as Hr.
  { apply rtc_once. split; vm_compute; reflexivity. }
  split; [apply world_bfs_iterates_once|].
  split; [vm_compute; reflexivity|].
  split; [vm_compute; reflexivity|].
  split; [exact Hr|]. intros u Hu.
  refine (proj1 (proj2 (proj2 (@scope_invariant strict_oracle
            (cli "http://h/a" 4 false) world_bfs
            (seeded "http://h/a" "h") {["http://h/a"]}
            world_bfs_iterates_once _ _) _ Hr)) u _);
    [vm_compute; reflexivity|vm_compute; reflexivity|].
  replace (found _) with ({["http://h/b"; "http://h/c"]} : gset string)
    by (vm_compute; reflexivity).
  exact Hu.
Defined.

(** ** C5: the parameter signature *)

(** C5, as stated, fails on a parameter whose value is empty: the
    signature of [/p?id=] is the bare path, not the path joined with the
    name [id]. *)
Lemma signature_drops_blank_names :
  @normalize_param_signature strict_oracle "http://h/p?id=" = Ok "/p"
  ∧ @signatureOf strict_oracle "http://h/p?id=" = Ok "/p?params=id"
  ∧ @normalize_param_signature strict_oracle "http://h/p?id="
    ≠ @signatureOf strict_oracle "http://h/p?id=".
Proof. split_and!; [vm_compute; reflexivity..|vm_compute; discriminate]. Qed.

(** C5 (amended): for every URL that [urlparse] accepts, the signature is
    the path, followed, when some query parameter has a non-empty value,
    by [?params=] and the names of those parameters (decoded, each once,
    in increasing order) joined by [&]; it is the path alone otherwise.
    [/p?id=1], [/p?id=2], [/p?id=3&x=1] yield [/p?params=id] twice and
    [/p?params=id&x].  Under [--dedup-params] no two links admitted to
    [found] share a signature, every signature on record is that of an
    admitted link, and what is visited is a seed or an admitted link; on
    a page exposing the three URLs, two signatures are recorded and one
    URL for each is visited. *)
Theorem signature_shape `{UrlOracle} args w st0 :
  (∀ u p, Url.urlparse u = Ok p →
     ∃ keys,
       StronglySorted String.le keys ∧ NoDup keys
       ∧ (∀ n, n ∈ keys ↔ kept_name (query p) n)
       ∧ normalize_param_signature u
         = Ok (if decide (keys = []) then path p
               else path p +:+ "?params=" +:+ Str.join "&" keys))
  ∧ (normalize_param_signature "/p?id=1" = Ok "/p?params=id"
     ∧ normalize_param_signature "/p?id=2" = Ok "/p?params=id"
     ∧ normalize_param_signature "/p?id=3&x=1" = Ok "/p?params=id&x"
     ∧ normalize_param_signature "/p" = Ok "/p")
  ∧ (iterates_once w → load_urls args w = Ok st0 →
     DEDUP_PARAM_SIG args = true →
     ∀ st, reachable args w st0 st →
       (∀ u1 u2 s, u1 ∈ found st → u2 ∈ found st →
          normalize_param_signature u1 = Ok s →
          normalize_param_signature u2 = Ok s → u1 = u2)
       ∧ (∀ u, u ∈ found st →
            ∃ s, normalize_param_signature u = Ok s
                 ∧ s ∈ seen_param_signatures st)
       ∧ (∀ s, s ∈ seen_param_signatures st →
            ∃ u, u ∈ found st ∧ normalize_param_signature u = Ok s)
       ∧ (∀ u seeds, seed_urls args = Ok seeds → u ∈ visited st →
            u ∈ seeds ∨ u ∈ found st))
  ∧ (∃ st, main (cli "http://h/" 50 true) world_sig 3 = Finished st
           ∧ seen_param_signatures st = {["/p?params=id"; "/p?params=id&x"]}
           ∧ found st = {["http://h/p?id=1"; "http://h/p?id=3&x=1"]}
           ∧ visited st
             = {["http://h/"; "http://h/p?id=1"; "http://h/p?id=3&x=1"]}).
Proof.
  split; [|split; [|split]].
  - intros u p Hp. exists (sorted_keys (Url.parse_qs (query p))).
    destruct (sorted_keys_spec (query p)) as (Hs & Hn & Hk).
    split_and!; try done.
    rewrite (normalize_param_signature_eq u p Hp).
    by destruct (sorted_keys _).
  - split_and!; vm_compute; reflexivity.
  - intros Hi Hl Hd st Hr.
    destruct (load_urls_spec _ _ _ Hl) as (seeds & Hs & _).
    pose proof (load_urls_inv _ _ _ _ Hi Hl Hs) as I0.
    pose proof (reachable_inv _ _ _ _ _ _ Hi Hr I0) as I.
    destruct (inv_sig _ _ _ _ I) as [Hc Hab].
    destruct (Hab Hd) as [Ha Hb].
    split_and!; try done.
    intros u seeds' Hs' Hu. assert (seeds' = seeds) as -> by congruence.
    apply (inv_origin _ _ _ _ I). by right.
  - eexists. split_and!; vm_compute; reflexivity.
Qed.

(** ** C6: signatures of URLs that differ in values only *)

(** C6, as stated, fails when one of the values is empty: [/p?id=1] and
    [/p?id=] differ in the value of [id] only and have the same names,
    yet their signatures differ. *)
Lemma signature_differs_on_blank_value :
  ∃ p1 p2,
    @Url.urlparse strict_oracle "http://h/p?id=1" = Ok p1
    ∧ @Url.urlparse strict_oracle "http://h/p?id=" = Ok p2
    ∧ scheme p1 = scheme p2 ∧ netloc p1 = netloc p2 ∧ path p1 = path p2
    ∧ params p1 = params p2 ∧ fragment p1 = fragment p2
    ∧ query_names (query p1) = query_names (query p2)
    ∧ @normalize_param_signature strict_oracle "http://h/p?id=1"
      ≠ @normalize_param_signature strict_oracle "http://h/p?id=".
Proof.
  do 2 eexists. split_and!; try (vm_compute; reflexivity).
  vm_compute. discriminate.
Qed.

(** C6 (amended): the signature is a function of the URL alone, and two
    URLs with the same path whose parameters of non-empty value have the
    same set of names have the same signature, whatever the values. *)
Theorem signature_ignores_values `{UrlOracle} u1 u2 p1 p2 :
  Url.urlparse u1 = Ok p1 →
  Url.urlparse u2 = Ok p2 →
  path p1 = path p2 →
  (∀ n, kept_name (query p1) n ↔ kept_name (query p2) n) →
  normalize_param_signature u1 = normalize_param_signature u2.
Proof.
  intros H1 H2 Hp Hk.
  rewrite (normalize_param_signature_eq u1 p1 H1).
  rewrite (normalize_param_signature_eq u2 p2 H2).
  by rewrite Hp, (sorted_keys_ext _ _ Hk).
Qed.

Lemma signature_ignores_values_witness :
  @normalize_param_signature strict_oracle "http://h/p?id=1&x=2"
  = @normalize_param_signature strict_oracle "http://h/p?x=7&id=9".
Proof.
  refine (@signature_ignores_values strict_oracle _ _ _ _ _ _ _ _);
    [vm_compute; reflexivity|vm_compute; reflexivity|reflexivity|].
  intros n. rewrite <- !parse_qsl_names. split.
  - intros [v Hv]. vm_compute in Hv.
    apply elem_of_cons in Hv as [[= -> _]|Hv].
    { exists "9". vm_compute. set_solver. }
    apply elem_of_cons in Hv as [[= -> _]|Hv]; [|by apply elem_of_nil in Hv].
    exists "7". vm_compute. set_solver.
  - intros [v Hv]. vm_compute in Hv.
    apply elem_of_cons in Hv as [[= -> _]|Hv].
    { exists "2". vm_compute. set_solver. }
    apply elem_of_cons in Hv as [[= -> _]|Hv]; [|by apply elem_of_nil in Hv].
    exists "1". vm_compute. set_solver.
Defined.

(** ** C7: failures *)

(** The table of a run that has met one URL. *)
Lemma show_table_single w st u :
  iterates_once w → visited st ∪ found st = {[u]} → markup w u = true →
  show_table w st = Ok [(pretty 1%Z, u)].
Proof.
  intros Hi Hu Hm. unfold show_table, table_rows_of.
  rewrite Hu, set_iter_singleton by done.
  change (py_sorted [u]) with [u]. cbn [imap fmap list_fmap print_all snd].
  unfold print. by rewrite Hm.
Qed.

(** C7, as stated, fails in four ways.  The line that [extract] logs for
    a failed fetch goes through Rich: for the address [http://h/[/b]],
    which is in scope and whose fetch times out, Rich raises
    [MarkupError] and the run ends there.  A failure of the extraction
    in the link loop is not caught: an anchor whose address [urlparse]
    rejects ends the run with [ValueError].  With [-t -1],
    [time.sleep] raises [ValueError] after the first visit, failed or
    not.  And with [-d 0] the seed whose fetch times out is never
    visited. *)
Lemma failed_fetch_ends_run :
  @program strict_oracle (cli "http://h/" 50 false) world_markup false 2
  = CrawlCrashed MarkupError
  ∧ @program strict_oracle (cli "http://h/" 50 false) world_malformed false 1
    = CrawlCrashed ValueError
  ∧ @program strict_oracle (cli_time "http://h/" 50 (-1)) world_timeout false 1
    = CrawlCrashed ValueError
  ∧ ∀ fuel, ∃ st,
      @program strict_oracle (cli "http://h/" 0 false) world_timeout false fuel
      = Reported st [] None
      ∧ visited st = ∅.
Proof.
  split_and!; try (vm_compute; reflexivity).
  intros fuel. exists (seeded "http://h/" "h"). split; [|reflexivity].
  destruct fuel; vm_compute; reflexivity.
Qed.



(** ** C8: the scope filter *)

(** C8, as stated, fails on a netloc with an unmatched bracket:
    [urlparse] raises [ValueError] and [is_valid] has no handler. *)
Lemma is_valid_raises :
  @is_valid strict_oracle {["h"]} "http://[" = Raise ValueError.
Proof. vm_compute; reflexivity. Qed.

(** C8 (amended): [is_valid] reads its argument and the allowed domains
    and writes nothing.  It raises exactly when [urlparse] raises, with
    the same exception, which is [ValueError] and occurs only on a text
    that holds a bracket or a byte outside ASCII.  On every input that
    [urlparse] accepts it returns a boolean, true exactly when the
    scheme is http or https and the netloc is among the allowed
    domains; so it returns a boolean on every string without a bracket
    and within ASCII, well formed or not. *)
Theorem is_valid_total `{UrlOracle} allowed u :
  match is_valid allowed u with
  | Ok b =>
      b = true ↔
      ∃ p, Url.urlparse u = Ok p
           ∧ scheme p ∈ ["http"; "https"] ∧ netloc p ∈ allowed
  | Raise e => e = ValueError ∧ ¬ plain u
  end
  ∧ (∀ e, Url.urlparse u = Raise e ↔ is_valid allowed u = Raise e)
  ∧ (∀ p, Url.urlparse u = Ok p →
       is_valid allowed u
       = Ok (bool_decide (scheme p ∈ ["http"; "https"])
             && bool_decide (netloc p ∈ allowed)))
  ∧ ((∃ p, Url.urlparse u = Ok p) ↔ ∃ b, is_valid allowed u = Ok b)
  ∧ (plain u → ∃ b, is_valid allowed u = Ok b)
  ∧ is_valid allowed "" = Ok false
  ∧ is_valid allowed "no scheme, no host" = Ok false
  ∧ is_valid allowed "mailto:someone@h" = Ok false.
Proof.
  assert (match is_valid allowed u with
          | Ok b =>
              b = true ↔
              ∃ p, Url.urlparse u = Ok p
                   ∧ scheme p ∈ ["http"; "https"] ∧ netloc p ∈ allowed
          | Raise e => e = ValueError ∧ ¬ plain u
          end) as Hm.
  { destruct (is_valid allowed u) as [b|e] eqn:Hv.
    - rewrite <- is_valid_true, Hv. split; congruence.
    - unfold is_valid in Hv.
      destruct (Url.urlparse u) as [p|e'] eqn:Hp; simpl in Hv; [done|].
      injection Hv as <-. by apply urlparse_raise. }
  split_and!; try done.
  - intros e. unfold is_valid.
    destruct (Url.urlparse u) as [p|e']; simpl; [done|].
    split; by intros [= ->].
  - intros p Hp. unfold is_valid. by rewrite Hp.
  - unfold is_valid. destruct (Url.urlparse u) as [p|e']; simpl.
    + split; eauto.
    + split; by intros [? ?].
  - intros Hpl. destruct (is_valid allowed u) as [b|e]; [by exists b|].
    by destruct Hm as [_ []].
Qed.

(** The exception is not caught further up either: an anchor with such
    an address on a fetched page ends the run. *)
Lemma malformed_href_ends_run `{UrlOracle} :
  main (cli "http://h/" 50 false) world_malformed 1 = Crashed ValueError.
Proof. vm_compute; reflexivity. Qed.

(** ** C9: the seeds *)

(** C9, as stated, fails on the signature and on the visit.  On a site
    whose pages link to themselves, under [--dedup-params], the seed
    [http://h/] is extracted from its own page and admitted as a link,
    and its signature [/] is recorded; and the signature of the seed
    [/p?id=1] is recorded when the link [/p?id=2], which shares it, is
    admitted.  A seed that Rich rejects, [http://h/[/b]], is queued by
    [load_urls], and [banner] raises [MarkupError] before any visit,
    whatever the budget. *)
Lemma seed_signature_recorded :
  (∃ st,
     @main strict_oracle (cli "http://h/" 5 true) world_self 5 = Finished st
     ∧ visit_log st = ["http://h/"]
     ∧ found st = {["http://h/"]}
     ∧ @normalize_param_signature strict_oracle "http://h/" = Ok "/"
     ∧ "/" ∈ seen_param_signatures st)
  ∧ (∃ st,
       @main strict_oracle (cli "http://h/p?id=1" 5 true) world_params 5
       = Finished st
       ∧ @normalize_param_signature strict_oracle "http://h/p?id=1"
         = Ok "/p?params=id"
       ∧ "/p?params=id" ∈ seen_param_signatures st)
  ∧ (@load_urls strict_oracle (cli "http://h/[/b]" 5 true) world_timeout
     = Ok (seeded "http://h/[/b]" "h")
     ∧ ∀ save fuel,
         @program strict_oracle (cli "http://h/[/b]" 5 true) world_timeout
           save fuel
         = CrawlCrashed MarkupError).
Proof.
  split; [|split].
  - eexists. split_and!; vm_compute; reflexivity.
  - eexists. split_and!; vm_compute; reflexivity.
  - split; [vm_compute; reflexivity|].
    intros save fuel. unfold program.
    replace (load_urls _ _) with (Ok (seeded "http://h/[/b]" "h"))
      by (vm_compute; reflexivity).
    unfold crawl.
    replace (banner _ _) with (@Raise unit MarkupError)
      by (vm_compute; reflexivity).
    reflexivity.
Qed.



(** ** C10: parameters without a value *)

(** C10: when no parameter of the query has a non-empty value, in
    particular when every field is [name=], the signature is the bare
    path, the same as for a URL of that path without a query;
    [/p?id=] and [/p] both have the signature [/p], and under
    [--dedup-params] the extractor that has admitted [/p] discards
    [/p?id=]. *)
Theorem blank_values_ignored `{UrlOracle} u p :
  Url.urlparse u = Ok p →
  (∀ f n v, f ∈ Str.split "&" (query p) →
            Str.partition "=" f = Some (n, v) → v = "") →
  normalize_param_signature u = Ok (path p)
  ∧ (∀ u' p', Url.urlparse u' = Ok p' → path p' = path p → query p' = "" →
       normalize_param_signature u' = normalize_param_signature u)
  ∧ normalize_param_signature "http://h/p?id=" = Ok "/p"
  ∧ normalize_param_signature "http://h/p" = Ok "/p"
  ∧ extract_links (cli "http://h/" 50 true) world_sig {["h"]} "http://h/"
      ["http://h/p"; "http://h/p?id="] ∅ ∅
    = Ok ({["http://h/p"]}, {["/p"]}).
Proof.
  intros Hp Hblank.
  assert (∀ q, (∀ f n v, f ∈ Str.split "&" q →
                         Str.partition "=" f = Some (n, v) → v = "") →
               sorted_keys (Url.parse_qs q) = []) as Hnil.
  { intros q Hq. apply sorted_keys_nil.
    intros n (f & n0 & v0 & Hf & Hpart & Hv & _). by apply Hv, (Hq f n0). }
  assert (normalize_param_signature u = Ok (path p)) as Hu.
  { rewrite (normalize_param_signature_eq u p Hp). by rewrite Hnil. }
  split_and!; try (vm_compute; reflexivity); [done|].
  intros u' p' Hp' Hpath Hq. rewrite Hu.
  rewrite (normalize_param_signature_eq u' p' Hp'), Hq, Hpath.
  by rewrite Hnil by (by intros f n v [= ->]%list_elem_of_singleton).
Qed.

Lemma blank_values_ignored_witness :
  @normalize_param_signature strict_oracle "http://h/a/b?x=&y=&z" = Ok "/a/b".
Proof.
  refine (proj1 (@blank_values_ignored strict_oracle "http://h/a/b?x=&y=&z"
                   {| scheme := "http"; netloc := "h"; path := "/a/b";
                      params := ""; query := "x=&y=&z"; fragment := "" |}
                   _ _)); [vm_compute; reflexivity|].
  intros f n v Hf. vm_compute in Hf.
  repeat (apply elem_of_cons in Hf as [->|Hf]); try by apply elem_of_nil in Hf.
  all: vm_compute; by intros [= <- <-].
Defined.

(** * Further properties of the program *)

Section Run.
Context `{UrlOracle}.
Variable args : Args.
Variable w : World.

(** [extract] writes one console line for a failure, none for a page. *)
Lemma extract_console u st links st' :
  extract args w u st = Ok (links, st') →
  console st' = console st ++ option_list (failure_log (http w u) u).
Proof.
  unfold extract.
  destruct (http w u) as [|msg|msg|e|base hrefs]; simpl; [..|done|].
  1-3: intros Hx; exc_inv Hx; injection Hx as <- <-;
       by apply log_ok in Hx0 as [_ ->].
  intros Hx. exc_inv Hx. destruct x as [l s]. injection Hx as <- <-. simpl.
  by rewrite app_nil_r.
Qed.

(** One iteration from a state of a run, in full. *)
Lemma step_shape seeds allowed st st' :
  iterates_once w → crawl_inv args seeds allowed st → step args w st st' →
  ∃ u q links st2,
    queue st = u :: q ∧ u ∉ visited st ∧ u ∉ q ∧ parses u
    ∧ extract args w u (entered u q st) = Ok (links, st2)
    ∧ visited st' = {[u]} ∪ visited st
    ∧ visit_log st' = visit_log st ++ [u]
    ∧ queue st' = q ++ pushed ({[u]} ∪ visited st) q (set_iter w links)
    ∧ found st' = found st ∪ links
    ∧ seen_param_signatures st' = seen_param_signatures st2
    ∧ console st'
      = console st ++ option_list (failure_log (http w u) u)
    ∧ allowed_domains st' = allowed_domains st.
Proof.
  intros Hi I [Hc Hb].
  apply loop_body_inv in Hb
    as (u & q & Hq & [[Hv ->]|(Hv & links & st2 & [p Hp] & Hx & ->)]).
  { exfalso. apply (inv_disjoint _ _ _ _ I u); [rewrite Hq; set_solver|done]. }
  exists u, q, links, st2.
  pose proof (inv_queue _ _ _ _ I) as Hnd. rewrite Hq in Hnd.
  apply NoDup_cons in Hnd as [Huq _].
  pose proof (extract_console _ _ _ _ Hx) as Hcon.
  pose proof Hx as Hx'.
  apply extract_spec in Hx' as (Hvis & Hqu & Hfo & Hal & Hlog & _).
  destruct (foldl_push_frame (set_iter w links) st2)
    as (Fv & Ff & Fa & Fs & Fl & Fc).
  pose proof (foldl_push_queue (set_iter w links) st2) as Fq.
  simpl in *. unfold parses. rewrite Hp.
  rewrite Fv, Fl, Fq, Fs, Fc, Fa, Hvis, Hlog, Hqu, Hfo, Hal, Hcon.
  by split_and!.
Qed.

(** The invariant holds along a run from [load_urls]. *)
Lemma run_inv st0 st :
  iterates_once w → load_urls args w = Ok st0 → reachable args w st0 st →
  ∃ seeds, seed_urls args = Ok seeds
           ∧ crawl_inv args seeds (allowed_domains st0) st.
Proof.
  intros Hi Hl Hr.
  destruct (load_urls_spec _ _ _ Hl) as (seeds & Hs & _).
  exists seeds. split; [done|].
  apply (reachable_inv args w seeds _ st0 st Hi Hr).
  by apply (load_urls_inv args w).
Qed.

(** The head of the queue in a run: not visited, and parsed before. *)
Lemma popped_head st0 st :
  iterates_once w → load_urls args w = Ok st0 → reachable args w st0 st →
  loop_cond args st = true →
  ∃ u q, queue st = u :: q ∧ u ∉ visited st ∧ ∃ p, Url.urlparse u = Ok p.
Proof.
  intros Hi Hl Hr Hc.
  destruct (run_inv st0 st Hi Hl Hr) as (seeds & Hs & I).
  apply loop_cond_true in Hc as [Hq _].
  destruct (queue st) as [|u q] eqn:Hqu; [done|]. exists u, q.
  split_and!; [done| |].
  - apply (inv_disjoint _ _ _ _ I). rewrite Hqu. set_solver.
  - apply (queued_parse args seeds (allowed_domains st0) st u); [|done|].
    + intros s Hin.
      destruct (seeds_parse args w st0 seeds s Hi Hl Hs Hin) as (p & ? & _).
      by exists p.
    + rewrite Hqu. set_solver.
Qed.

End Run.

(** ** [load_urls]: the seeds and the exits *)

Lemma truthy_true s : truthy s = true ↔ s ≠ "".
Proof. by destruct s. Qed.

Lemma file_urls_elem lines u :
  u ∈ file_urls lines ↔ u ≠ "" ∧ ∃ l, l ∈ lines ∧ Str.strip l = u.
Proof.
  unfold file_urls.
  rewrite elem_of_list_to_set, list_elem_of_filter, list_elem_of_fmap.
  rewrite truthy_true. naive_solver.
Qed.

Lemma seed_urls_cases args :
  match arg_list args with
  | Some (FileNotFound _) => seed_urls args = Raise SystemExit
  | Some FileError => seed_urls args = Raise OSError
  | Some FileUndecodable => seed_urls args = Raise UnicodeDecodeError
  | _ =>
      ∃ X : gset string,
        (∀ u, u ∈ X ↔ is_seed args u)
        ∧ seed_urls args
          = if bool_decide (X = ∅) then Raise SystemExit else Ok X
  end.
Proof.
  unfold seed_urls, is_seed.
  destruct (arg_list args) as [[name| | |lines]|]; try done; simpl.
  - eexists. split; [|reflexivity].
    intros u. rewrite elem_of_union, file_urls_elem.
    destruct (arg_url args) as [v|]; [destruct (truthy v) eqn:Hv|].
    + apply truthy_true in Hv. rewrite elem_of_singleton. split.
      * intros [->|[? (l & ? & ?)]]; [by split; [|left]|].
        split; [done|]. right. by exists lines, l.
      * intros [? [[= ->]|(ls & l & [= <-] & ? & ?)]]; [by left|].
        right. split; [done|]. by exists l.
    + apply not_true_iff_false in Hv. rewrite truthy_true in Hv. split.
      * intros [?%elem_of_empty|[? (l & ? & ?)]]; [done|].
        split; [done|]. right. by exists lines, l.
      * intros [Hu [[= ->]|(ls & l & [= <-] & ? & ?)]]; [done|].
        right. split; [done|]. by exists l.
    + split.
      * intros [?%elem_of_empty|[? (l & ? & ?)]]; [done|].
        split; [done|]. right. by exists lines, l.
      * intros [? [?|(ls & l & [= <-] & ? & ?)]]; [done|].
        right. split; [done|]. by exists l.
  - eexists. split; [|reflexivity].
    intros u. destruct (arg_url args) as [v|]; [destruct (truthy v) eqn:Hv|].
    + apply truthy_true in Hv. rewrite elem_of_singleton. split.
      * intros ->. by split; [|left].
      * by intros [? [[= ->]|(ls & l & ? & _)]].
    + apply not_true_iff_false in Hv. rewrite truthy_true in Hv. split.
      * by intros ?%elem_of_empty.
      * intros [Hu [[= ->]|(ls & l & ? & _)]]; done.
    + split; [by intros ?%elem_of_empty|].
      by intros [_ [?|(ls & l & ? & _)]].
Qed.

Lemma seed_urls_read args :
  list_read args →
  ∃ X : gset string,
    (∀ u, u ∈ X ↔ is_seed args u)
    ∧ seed_urls args
      = if bool_decide (X = ∅) then Raise SystemExit else Ok X.
Proof.
  intros Hr. pose proof (seed_urls_cases args) as Hc. unfold list_read in Hr.
  by destruct (arg_list args) as [[name| | |lines]|].
Qed.

Lemma seed_urls_ok args seeds u :
  seed_urls args = Ok seeds → u ∈ seeds ↔ is_seed args u.
Proof.
  pose proof (seed_urls_cases args) as Hc. intros Hs.
  destruct (arg_list args) as [[name| | |lines]|]; try congruence.
  all: destruct Hc as (X & HX & Hc); rewrite Hs in Hc;
    destruct (bool_decide (X = ∅)); [done|]; by injection Hc as ->.
Qed.

Lemma seed_domains_raise `{UrlOracle} us acc e :
  seed_domains us acc = Raise e ↔ ∃ u, u ∈ us ∧ Url.urlparse u = Raise e.
Proof.
  revert acc. induction us as [|u us IH]; intros acc; simpl.
  - split; [done|]. by intros (u & ?%elem_of_nil & _).
  - destruct (Url.urlparse u) as [p|e'] eqn:Hp; simpl.
    + rewrite IH. split.
      * intros (v & ? & ?). exists v. split; [set_solver|done].
      * intros (v & [->|?]%elem_of_cons & Hv); [congruence|by exists v].
    + split.
      * intros [= <-]. exists u. split; [set_solver|done].
      * intros (v & _ & [-> _]%urlparse_raise).
        by apply urlparse_raise in Hp as [-> _].
Qed.



(** After [load_urls] the queue holds exactly the seeds of the command
    line, the [-u] argument and the stripped, non-empty lines of the
    [-l] file, each once; and the allowed domains are exactly their
    netlocs. *)
Theorem load_urls_queue `{UrlOracle} args w st0 :
  iterates_once w →
  load_urls args w = Ok st0 →
  NoDup (queue st0)
  ∧ (∀ u, u ∈ queue st0 ↔ is_seed args u)
  ∧ (∀ d, d ∈ allowed_domains st0 ↔
          ∃ u p, is_seed args u ∧ Url.urlparse u = Ok p ∧ netloc p = d).
Proof.
  intros Hi Hl.
  destruct (load_urls_spec _ _ _ Hl) as (seeds & Hs & _ & Hst & Hd).
  apply seed_domains_spec in Hd as (_ & Hall & Hfrom).
  rewrite Hst. simpl. split_and!.
  - by apply set_iter_NoDup.
  - intros u. rewrite (set_iter_elem w seeds u Hi).
    by apply seed_urls_ok.
  - intros d. split.
    + intros [?%elem_of_empty|(u & p & Hu & ? & ?)]%Hfrom; [done|].
      exists u, p. split; [|done].
      apply (seed_urls_ok args seeds u Hs). by apply (set_iter_elem w) in Hu.
    + intros (u & p & Hu & Hp & <-).
      apply (seed_urls_ok args seeds u Hs), (set_iter_elem w seeds u Hi) in Hu.
      destruct (Hall u Hu) as (p' & Hp' & ?). congruence.
Qed.

(** With [-u http://h/] and a file of three lines, the address of the
    command line between blanks, a no-break space alone, and another
    address followed by a no-break space: two seeds. *)
Lemma load_urls_queue_witness :
  iterates_once world_timeout
  ∧ @load_urls strict_oracle
      (cli_list (Some "http://h/")
         [" http://h/ "; nbsp; "http://g/x" +:+ nbsp]) world_timeout
    = Ok (st_of ["g"; "h"] [] ["http://g/x"; "http://h/"] [] [] [])
  ∧ NoDup ["http://g/x"; "http://h/"].
Proof.
  split; [apply world_timeout_iterates_once|].
  assert (@load_urls strict_oracle
      (cli_list (Some "http://h/")
         [" http://h/ "; nbsp; "http://g/x" +:+ nbsp]) world_timeout
    = Ok (st_of ["g"; "h"] [] ["http://g/x"; "http://h/"] [] [] [])) as Hl
    by (vm_compute; reflexivity).
  split; [done|].
  exact (proj1 (@load_urls_queue strict_oracle _ world_timeout _
                  world_timeout_iterates_once Hl)).
Defined.

(** ** The main loop: what each iteration does *)

(** In a run, the URL popped by [popleft] is never a visited one: the
    [continue] of line 157 is never taken, [popleft] finds the queue
    non-empty, and the [urlparse] of line 160 accepts the URL. *)
Theorem popped_url_is_new `{UrlOracle} args w st0 st :
  iterates_once w →
  load_urls args w = Ok st0 →
  reachable args w st0 st →
  loop_cond args st = true →
  ∃ u q, queue st = u :: q ∧ u ∉ visited st ∧ u ∉ q ∧ parses u.
Proof.
  intros Hi Hl Hr Hc.
  destruct (run_inv args w st0 st Hi Hl Hr) as (seeds & Hs & I).
  apply loop_cond_true in Hc as [Hq _].
  destruct (queue st) as [|u q] eqn:Hqu; [done|]. exists u, q.
  pose proof (inv_queue _ _ _ _ I) as Hnd. rewrite Hqu in Hnd.
  apply NoDup_cons in Hnd as [? _].
  split_and!; try done.
  - apply (inv_disjoint _ _ _ _ I). rewrite Hqu. set_solver.
  - assert (∃ p, Url.urlparse u = Ok p) as [p Hp].
    { apply (queued_parse args seeds (allowed_domains st0) st u); [|done|].
      - intros s Hin.
        destruct (seeds_parse args w st0 seeds s Hi Hl Hs Hin) as (p & ? & _).
        by exists p.
      - rewrite Hqu. set_solver. }
    unfold parses. by rewrite Hp.
Qed.

(** On the site A -> {B, C}, B -> {D}, after the visit of A, with C
    and B in the queue. *)
Lemma popped_url_is_new_witness :
  iterates_once world_bfs
  ∧ @load_urls strict_oracle (cli "http://h/a" 4 false) world_bfs
    = Ok (seeded "http://h/a" "h")
  ∧ @reachable strict_oracle (cli "http://h/a" 4 false) world_bfs
      (seeded "http://h/a" "h") bfs_after_a
  ∧ ∃ u q,
      queue bfs_after_a = u :: q ∧ u ∉ visited bfs_after_a
      ∧ u ∉ q ∧ @parses strict_oracle u.
Proof.
  assert (@reachable strict_oracle (cli "http://h/a" 4 false) world_bfs
            (seeded "http://h/a" "h") bfs_after_a) as Hr.
  { apply rtc_once. split; vm_compute; reflexivity. }
  split; [apply world_bfs_iterates_once|].
  split; [vm_compute; reflexivity|].
  split; [exact Hr|].
  apply (@popped_url_is_new strict_oracle (cli "http://h/a" 4 false)
           world_bfs (seeded "http://h/a" "h") _
           world_bfs_iterates_once);
    [vm_compute; reflexivity|exact Hr|vm_compute; reflexivity].
Defined.

(** Every iteration fetches one page: after [n] iterations of a run,
    [n] URLs are visited.  So the loop makes at most [MAX_PAGES]
    iterations, and that much fuel is enough for [crawl_loop]. *)
Theorem one_fetch_per_iteration `{UrlOracle} args w st0 :
  iterates_once w →
  load_urls args w = Ok st0 →
  (∀ n st, nsteps (step args w) n st0 st →
     size (visited st) = n ∧ length (visit_log st) = n
     ∧ (Z.of_nat n ≤ Z.max 0 (MAX_PAGES args))%Z)
  ∧ crawl_loop args w (Z.to_nat (MAX_PAGES args)) st0 ≠ OutOfFuel.
Proof.
  intros Hi Hl.
  destruct (load_urls_spec _ _ _ Hl) as (seeds & Hs & _ & Hst0 & _).
  assert (size (visited st0) = 0%nat) as Hz.
  { replace (visited st0) with (∅ : gset string) by (by rewrite Hst0). done. }
  clear Hst0.
  pose proof (load_urls_inv args w st0 seeds Hi Hl Hs) as I0.
  assert (∀ n st st', crawl_inv args seeds (allowed_domains st0) st →
            nsteps (step args w) n st st' →
            size (visited st') = (size (visited st) + n)%nat
            ∧ crawl_inv args seeds (allowed_domains st0) st') as Hn.
  { intros n st st' I Hst. revert I.
    induction Hst as [st|n st1 st2 st3 Hs12 _ IH]; intros I.
    - split; [lia|done].
    - pose proof (step_inv args w _ _ _ _ Hi Hs12 I) as I2.
      destruct (IH I2) as [-> I3]. split; [|done].
      destruct (step_shape args w _ _ _ _ Hi I Hs12)
        as (u & q & links & st2' & _ & Hv & _ & _ & _ & -> & _).
      rewrite size_union by set_solver. rewrite size_singleton. lia. }
  split.
  - intros n st Hst. destruct (Hn n st0 st I0 Hst) as [Hsz I].
    rewrite Hz in Hsz. simpl in Hsz. split_and!; [done| |].
    + rewrite <- Hsz, (inv_visited _ _ _ _ I).
      symmetry. rewrite <- (size_list_to_set (C := gset string));
        [done|apply I].
    + rewrite <- Hsz. apply I.
  - assert (∀ fuel st, crawl_inv args seeds (allowed_domains st0) st →
              (budget_left args st ≤ fuel)%nat →
              crawl_loop args w fuel st ≠ OutOfFuel) as Hf.
    { induction fuel as [|fuel IH]; intros st I Hb; simpl.
      - destruct (loop_cond args st) eqn:Hc; [|done].
        apply loop_cond_true in Hc as [_ Hlt]. unfold budget_left in Hb. lia.
      - destruct (loop_cond args st) eqn:Hc; [|done].
        destruct (loop_body args w st) as [st'|e] eqn:Hbody; [|done].
        assert (step args w st st') as Hst by done.
        apply IH; [by eapply step_inv|].
        destruct (step_shape args w _ _ _ _ Hi I Hst)
          as (u & q & links & st2' & _ & Hv & _ & _ & _ & Hvis & _).
        apply loop_cond_true in Hc as [_ Hlt].
        unfold budget_left in *. rewrite Hvis.
        rewrite size_union by set_solver. rewrite size_singleton. lia. }
    apply Hf; [done|]. unfold budget_left. rewrite Hz. lia.
Qed.

Lemma one_fetch_per_iteration_witness :
  iterates_once world_bfs
  ∧ @load_urls strict_oracle (cli "http://h/a" 4 false) world_bfs
    = Ok (seeded "http://h/a" "h")
  ∧ @crawl_loop strict_oracle (cli "http://h/a" 4 false) world_bfs 4
      (seeded "http://h/a" "h") ≠ OutOfFuel.
Proof.
  split; [apply world_bfs_iterates_once|].
  split; [vm_compute; reflexivity|].
  refine (proj2 (@one_fetch_per_iteration strict_oracle
                   (cli "http://h/a" 4 false) world_bfs
                   (seeded "http://h/a" "h") world_bfs_iterates_once _)).
  vm_compute; reflexivity.
Defined.

(** ** What can end a run *)

Lemma extract_links_raise `{UrlOracle} args w allowed base hrefs links seen e :
  extract_links args w allowed base hrefs links seen = Raise e →
  ∃ href, href ∈ hrefs
    ∧ (urljoin w base href = Raise e
       ∨ ∃ a, urljoin w base href = Ok a ∧ Url.urlparse a = Raise e).
Proof.
  revert links seen. induction hrefs as [|href rest IH]; intros links seen;
    simpl; [done|].
  destruct (urljoin w base href) as [a|e'] eqn:Hj; simpl.
  2:{ intros [= <-]. exists href. split; [set_solver|by left]. }
  assert (∀ l s, extract_links args w allowed base rest l s = Raise e →
            ∃ href0, href0 ∈ href :: rest
              ∧ (urljoin w base href0 = Raise e
                 ∨ ∃ a0, urljoin w base href0 = Ok a0
                         ∧ Url.urlparse a0 = Raise e)) as Hrest.
  { intros l s (h & ? & ?)%IH. exists h. split; [set_solver|done]. }
  unfold is_valid at 1.
  destruct (Url.urlparse a) as [p|e'] eqn:Hp; simpl.
  2:{ intros [= <-]. exists href. split; [set_solver|]. right. by exists a. }
  destruct (_ && _); [|by apply Hrest].
  destruct (DEDUP_PARAM_SIG args); [|by apply Hrest].
  rewrite (normalize_param_signature_eq a p Hp). simpl.
  destruct (bool_decide _); by apply Hrest.
Qed.

(** In a run, what raises in an iteration of the loop is one of four
    things: Rich, on the line that [extract] logs for a fetch that
    failed; [requests], with an exception that is no
    [RequestException]; the link loop of [extract], where [urljoin]
    raises on an anchor or resolves it to an address that [urlparse]
    rejects; or [time.sleep], after [extract] has returned.  Neither
    [popleft] nor the [urlparse] of line 160 ever raises. *)
Theorem loop_exceptions `{UrlOracle} args w st0 st e :
  iterates_once w →
  load_urls args w = Ok st0 →
  reachable args w st0 st →
  loop_cond args st = true →
  loop_body args w st = Raise e →
  ∃ u q,
    queue st = u :: q ∧ u ∉ visited st
    ∧ ((∃ entry, failure_log (http w u) u = Some entry
                 ∧ markup w (log_text entry) = false ∧ e = MarkupError)
       ∨ http w u = Uncaught e
       ∨ (∃ base hrefs href,
            http w u = Document base hrefs ∧ href ∈ hrefs
            ∧ (urljoin w base href = Raise e
               ∨ ∃ a, urljoin w base href = Ok a
                      ∧ Url.urlparse a = Raise e ∧ e = ValueError))
       ∨ ((∃ links st2, extract args w u (entered u q st) = Ok (links, st2))
          ∧ sleep (DELAY args) = Raise e)).
Proof.
  intros Hi Hl Hr Hc Hb.
  destruct (popped_head args w st0 st Hi Hl Hr Hc) as (u & q & Hq & Hv & p & Hp).
  exists u, q. split; [done|]. split; [done|].
  pose proof (loop_body_cases args w st u q p Hq Hv Hp) as Hcase.
  destruct (extract args w u (entered u q st)) as [[links st2]|e'] eqn:Hx.
  - right. right. right. split; [by exists links, st2|].
    destruct (sleep (DELAY args)) as [[]|e'']; congruence.
  - assert (e' = e) as -> by congruence. clear Hcase.
    unfold extract in Hx.
    destruct (http w u) as [|msg|msg|e'|base hrefs] eqn:Hh.
    1-3: left; eexists; split; [reflexivity|];
         destruct (log w _ _) eqn:Hlog; [done|];
         injection Hx as ->; by apply log_raise in Hlog.
    + right. left. congruence.
    + right. right. left.
      destruct (extract_links _ _ _ _ _ _ _) as [[l s]|e'] eqn:Hxl; [done|].
      simpl in Hx. injection Hx as ->.
      apply extract_links_raise in Hxl as (href & Hin & Hcase).
      exists base, hrefs, href. split_and!; try done.
      destruct Hcase as [?|(a & ? & Ha)]; [by left|].
      right. exists a. split_and!; try done.
      by apply urlparse_raise in Ha as [-> _].
Qed.

(** On the site whose front page links to [/[/b]]: after the visit of
    the front page the fetch of [/[/b]] times out and Rich rejects the
    line. *)
Lemma loop_exceptions_witness :
  iterates_once world_markup
  ∧ @load_urls strict_oracle (cli "http://h/" 50 false) world_markup
    = Ok (seeded "http://h/" "h")
  ∧ @reachable strict_oracle (cli "http://h/" 50 false) world_markup
      (seeded "http://h/" "h")
      (st_of ["h"] ["http://h/"] ["http://h/[/b]"] ["http://h/[/b]"] []
         ["http://h/"])
  ∧ @loop_body strict_oracle (cli "http://h/" 50 false) world_markup
      (st_of ["h"] ["http://h/"] ["http://h/[/b]"] ["http://h/[/b]"] []
         ["http://h/"])
    = Raise MarkupError
  ∧ ∃ u entry,
      failure_log (http world_markup u) u = Some entry
      ∧ markup world_markup (log_text entry) = false.
Proof.
  assert (iterates_once world_markup) as Hi by (by intros X).
  assert (@reachable strict_oracle (cli "http://h/" 50 false) world_markup
            (seeded "http://h/" "h")
            (st_of ["h"] ["http://h/"] ["http://h/[/b]"] ["http://h/[/b]"] []
               ["http://h/"])) as Hr.
  { apply rtc_once. split; vm_compute; reflexivity. }
  split; [exact Hi|].
  split; [vm_compute; reflexivity|].
  split; [exact Hr|].
  split; [vm_compute; reflexivity|].
  destruct (@loop_exceptions strict_oracle (cli "http://h/" 50 false)
              world_markup (seeded "http://h/" "h") _ MarkupError Hi
              eq_refl Hr)
    as (u & q & Hq & _ & [(entry & Hf & Hm & _)|[Hu|[Hd|[_ Hs]]]]).
  - vm_compute; reflexivity.
  - vm_compute; reflexivity.
  - by exists u, entry.
  - exfalso. injection Hq as <- _. vm_compute in Hu. discriminate Hu.
  - exfalso. injection Hq as <- _.
    destruct Hd as (base & hrefs & href & Hd & _). vm_compute in Hd.
    discriminate Hd.
  - exfalso. vm_compute in Hs. discriminate Hs.
Defined.

(** ** What the run accumulates *)

Lemma step_grows `{UrlOracle} args w st st' :
  step args w st st' →
  visited st ⊆ visited st' ∧ found st ⊆ found st'
  ∧ seen_param_signatures st ⊆ seen_param_signatures st'
  ∧ visit_log st `prefix_of` visit_log st'
  ∧ console st `prefix_of` console st'
  ∧ allowed_domains st' = allowed_domains st.
Proof.
  intros [_ Hb].
  apply loop_body_inv in Hb
    as (u & q & Hq & [[Hv ->]|(Hv & links & st2 & _ & Hx & ->)]); [done|].
  pose proof (extract_console _ _ _ _ _ _ Hx) as Hcon.
  apply extract_spec in Hx as (Hvis & _ & Hfo & Hal & Hlog & Hse & _).
  destruct (foldl_push_frame (set_iter w links) st2)
    as (Fv & Ff & Fa & Fs & Fl & Fc).
  simpl in *. rewrite Fv, Fa, Fs, Fl, Fc, Hvis, Hfo, Hal, Hlog, Hcon.
  split_and!;
    [set_solver|set_solver|done|by apply prefix_app_r..|done].
Qed.

(** Along a run nothing is ever forgotten: the visited set, the found
    set and the recorded signatures only grow, the sequence of visits
    and the console are only appended to, and the allowed domains stay
    as they are. *)
Theorem records_only_grow `{UrlOracle} args w st st' :
  reachable args w st st' →
  visited st ⊆ visited st' ∧ found st ⊆ found st'
  ∧ seen_param_signatures st ⊆ seen_param_signatures st'
  ∧ visit_log st `prefix_of` visit_log st'
  ∧ console st `prefix_of` console st'
  ∧ allowed_domains st' = allowed_domains st.
Proof.
  induction 1 as [st|st1 st2 st3 Hs _ IH]; [done|].
  apply step_grows in Hs as (? & ? & ? & ? & ? & Ha).
  destruct IH as (? & ? & ? & ? & ? & Ha').
  split_and!; try (by etrans); congruence.
Qed.

(** On the site A -> {B, C}, B -> {D}: from the state after the visit
    of A, where B and C are found, to the state after the visit of C. *)
Lemma records_only_grow_witness :
  @reachable strict_oracle (cli "http://h/a" 4 false) world_bfs
    bfs_after_a bfs_after_c
  ∧ visited bfs_after_a ⊆ visited bfs_after_c
  ∧ found bfs_after_a ⊆ found bfs_after_c
  ∧ visit_log bfs_after_a `prefix_of` visit_log bfs_after_c.
Proof.
  assert (@reachable strict_oracle (cli "http://h/a" 4 false) world_bfs
            bfs_after_a bfs_after_c) as Hr.
  { apply rtc_once. split; vm_compute; reflexivity. }
  split; [exact Hr|].
  destruct (@records_only_grow strict_oracle (cli "http://h/a" 4 false)
              world_bfs _ _ Hr) as (Hv & Hf & _ & Hlog & _).
  split; [exact Hv|]. split; [exact Hf|exact Hlog].
Defined.


Lemma found_frontier `{UrlOracle} args w st0 st u :
  iterates_once w → load_urls args w = Ok st0 →
  reachable args w st0 st → u ∈ found st → u ∈ visited st ∨ u ∈ queue st.
Proof.
  intros Hi Hl Hr.
  destruct (load_urls_spec _ _ _ Hl) as (seeds & Hs & _ & Hst0 & _).
  pose proof (load_urls_inv args w st0 seeds Hi Hl Hs) as I0.
  revert u. revert st Hr.
  apply (@rtc_ind_r State (step args w)
           (λ st, ∀ u, u ∈ found st → u ∈ visited st ∨ u ∈ queue st) st0).
  - intros u. rewrite Hst0. simpl. by intros ?%elem_of_empty.
  - intros st1 st2 Hr1 Hs12 IH u.
    pose proof (reachable_inv args w _ _ _ _ Hi Hr1 I0) as I1.
    destruct (step_shape args w _ _ _ _ Hi I1 Hs12)
      as (v & q & links & st2' & Hq & Hv & _ & _ & Hx & -> & _ & -> & -> & _).
    intros [Hu|Hu]%elem_of_union.
    + destruct (IH u Hu) as [?|Hin]; [set_solver|].
      rewrite Hq in Hin. apply elem_of_cons in Hin as [->|?]; set_solver.
    + destruct (decide (u ∈ {[v]} ∪ visited st1)) as [?|Hn]; [by left|].
      right. apply pushed_complete; [|done]. by apply set_iter_elem.
Qed.

(** A link that was found is visited or waits in the queue: none is
    lost.  So when the loop ends with the budget not used up, every URL
    found has been visited: the visited set is the seeds and the found
    links. *)
Theorem discovered_is_visited_or_queued `{UrlOracle} args w st0 seeds :
  iterates_once w →
  load_urls args w = Ok st0 →
  seed_urls args = Ok seeds →
  (∀ st u, reachable args w st0 st → u ∈ found st →
     u ∈ visited st ∨ u ∈ queue st)
  ∧ (∀ fuel st, crawl_loop args w fuel st0 = Finished st →
       (Z.of_nat (size (visited st)) < MAX_PAGES args)%Z →
       queue st = [] ∧ visited st = seeds ∪ found st).
Proof.
  intros Hi Hl Hs.
  pose proof (load_urls_inv args w st0 seeds Hi Hl Hs) as I0.
  split; [intros st u; by apply found_frontier|].
  intros fuel st [Hr Hc]%crawl_loop_reachable Hlt.
  pose proof (reachable_inv args w _ _ _ _ Hi Hr I0) as I.
  assert (queue st = []) as Hq.
  { unfold loop_cond in Hc. apply andb_false_iff in Hc as [Hc|Hc].
    - by apply negb_false_iff, bool_decide_eq_true in Hc.
    - apply bool_decide_eq_false in Hc. lia. }
  split; [done|]. apply set_eq. intros u. split.
  - intros Hu. apply elem_of_union. apply (inv_origin _ _ _ _ I). by right.
  - intros [Hu|Hu]%elem_of_union.
    + destruct (inv_seeds _ _ _ _ I u Hu) as [Hin|?]; [|done].
      rewrite Hq in Hin. by apply elem_of_nil in Hin.
    + destruct (found_frontier args w st0 st u Hi Hl Hr Hu) as [?|Hin]; [done|].
      rewrite Hq in Hin. by apply elem_of_nil in Hin.
Qed.

Lemma discovered_is_visited_or_queued_witness :
  iterates_once world_params
  ∧ @load_urls strict_oracle (cli "http://h/p?id=1" 5 false) world_params
    = Ok (seeded "http://h/p?id=1" "h")
  ∧ @seed_urls (cli "http://h/p?id=1" 5 false) = Ok {["http://h/p?id=1"]}
  ∧ ∀ st u,
      @reachable strict_oracle (cli "http://h/p?id=1" 5 false) world_params
        (seeded "http://h/p?id=1" "h") st →
      u ∈ found st → u ∈ visited st ∨ u ∈ queue st.
Proof.
  assert (iterates_once world_params) as Hi by (by intros X).
  split; [done|].
  split; [vm_compute; reflexivity|].
  split; [vm_compute; reflexivity|].
  refine (proj1 (@discovered_is_visited_or_queued strict_oracle
            (cli "http://h/p?id=1" 5 false) world_params
            (seeded "http://h/p?id=1" "h") {["http://h/p?id=1"]} Hi _ _));
    vm_compute; reflexivity.
Defined.

(** The console holds one line for each visited URL whose fetch or
    parse failed, in the order of the visits, and nothing else. *)
Theorem console_lists_failures `{UrlOracle} args w st0 st :
  iterates_once w →
  load_urls args w = Ok st0 →
  reachable args w st0 st →
  console st = omap (λ u, failure_log (http w u) u) (visit_log st).
Proof.
  intros Hi Hl Hr.
  destruct (load_urls_spec _ _ _ Hl) as (seeds & Hs & _).
  pose proof (load_urls_inv args w st0 seeds Hi Hl Hs) as I0.
  destruct (load_urls_spec _ _ _ Hl) as (? & _ & _ & Hst0 & _).
  revert st Hr.
  apply (@rtc_ind_r State (step args w)
           (λ st, console st
                  = omap (λ u, failure_log (http w u) u) (visit_log st))
           st0).
  - by rewrite Hst0.
  - intros st1 st2 Hr1 Hs12 IH.
    pose proof (reachable_inv args w _ _ _ _ Hi Hr1 I0) as I1.
    destruct (step_shape args w _ _ _ _ Hi I1 Hs12)
      as (v & q & links & st2' & _ & _ & _ & _ & _ & _ & -> & _ & _ & _ & -> & _).
    rewrite omap_app, IH. simpl. by destruct (failure_log _ _).
Qed.

Lemma console_lists_failures_witness :
  iterates_once world_timeout
  ∧ @load_urls strict_oracle (cli "http://h/" 3 false) world_timeout
    = Ok (seeded "http://h/" "h")
  ∧ ∀ st, @step strict_oracle (cli "http://h/" 3 false) world_timeout
            (seeded "http://h/" "h") st →
          console st = omap (λ u, failure_log Timeout u) (visit_log st).
Proof.
  split; [apply world_timeout_iterates_once|].
  split; [vm_compute; reflexivity|]. intros st Hst.
  apply (@console_lists_failures strict_oracle (cli "http://h/" 3 false)
           world_timeout (seeded "http://h/" "h") st
           world_timeout_iterates_once).
  - vm_compute; reflexivity.
  - by apply rtc_once.
Defined.

(** Visits follow the order of discovery: the sequence of visits
    followed by the queue is only ever extended at its end, so a URL
    that entered the queue before another is visited before it. *)
Theorem visits_follow_discovery `{UrlOracle} args w st0 st st' :
  iterates_once w →
  load_urls args w = Ok st0 →
  reachable args w st0 st →
  reachable args w st st' →
  (visit_log st ++ queue st) `prefix_of` (visit_log st' ++ queue st')
  ∧ NoDup (visit_log st' ++ queue st').
Proof.
  intros Hi Hl Hr0 Hr.
  destruct (load_urls_spec _ _ _ Hl) as (seeds & Hs & _).
  pose proof (load_urls_inv args w st0 seeds Hi Hl Hs) as I0.
  pose proof (reachable_inv args w _ _ _ _ Hi Hr0 I0) as I.
  split.
  - clear Hr0. induction Hr as [st|st1 st2 st3 Hs12 Hr23 IH]; [done|].
    pose proof (step_inv args w _ _ _ _ Hi Hs12 I) as I2.
    etrans; [|by apply IH].
    destruct (step_shape args w _ _ _ _ Hi I Hs12)
      as (v & q & links & st2' & -> & _ & _ & _ & _ & _ & -> & -> & _).
    rewrite <- (assoc_L (++) (visit_log st1) [v]). simpl.
    replace (visit_log st1 ++ v :: q ++ _)
      with ((visit_log st1 ++ v :: q) ++
            pushed ({[v]} ∪ visited st1) q (set_iter w links))
      by (by rewrite <- app_assoc).
    by apply prefix_app_r.
  - pose proof (reachable_trans args w _ _ _ Hr0 Hr) as Hr'.
    pose proof (reachable_inv args w _ _ _ _ Hi Hr' I0) as I'.
    apply NoDup_app. split_and!; [apply I'| |apply I'].
    intros u Hu Hq. apply (inv_disjoint _ _ _ _ I' u Hq).
    rewrite (inv_visited _ _ _ _ I'). by apply elem_of_list_to_set.
Qed.

Lemma visits_follow_discovery_witness :
  iterates_once world_bfs
  ∧ @load_urls strict_oracle (cli "http://h/a" 4 false) world_bfs
    = Ok (seeded "http://h/a" "h")
  ∧ ∀ st, @step strict_oracle (cli "http://h/a" 4 false) world_bfs
            (seeded "http://h/a" "h") st →
          ["http://h/a"] `prefix_of` (visit_log st ++ queue st).
Proof.
  split; [apply world_bfs_iterates_once|].
  split; [vm_compute; reflexivity|]. intros st Hst.
  refine (proj1 (@visits_follow_discovery strict_oracle
            (cli "http://h/a" 4 false) world_bfs (seeded "http://h/a" "h")
            (seeded "http://h/a" "h") st world_bfs_iterates_once _ _ _)).
  - vm_compute; reflexivity.
  - apply rtc_refl.
  - by apply rtc_once.
Defined.

(** ** The link loop of [extract] *)

Lemma extract_links_plain `{UrlOracle} args w allowed base all hrefs
    links seen links' seen' :
  DEDUP_PARAM_SIG args = false →
  hrefs ⊆ all →
  extract_links args w allowed base hrefs links seen = Ok (links', seen') →
  seen' = seen
  ∧ (∀ a, a ∈ links' →
       a ∈ links ∨ in_scope_link w allowed base all a)
  ∧ (∀ a, a ∈ links ∨ in_scope_link w allowed base hrefs a → a ∈ links').
Proof.
  intros Hd. revert links seen.
  induction hrefs as [|href rest IH]; intros links seen Hsub; simpl.
  - intros [= <- <-]. split_and!; [done|auto|].
    by intros a [?|(h & ?%elem_of_nil & _)].
  - intros Hx. exc_inv Hx. rename x into a0, x0 into ok.
    assert (rest ⊆ all) as Hsub' by set_solver.
    rewrite Hd in Hx. destruct ok.
    + apply IH in Hx as (-> & Hin & Hout); [|done]. split_and!; [done| |].
      * intros a [[->%elem_of_singleton|?]%elem_of_union|?]%Hin; auto.
        right. exists href. split_and!; [set_solver|done|done].
      * intros a [?|(h & [->|?]%elem_of_cons & Hj & Hv)]; apply Hout.
        -- left. set_solver.
        -- left. assert (a = a0) as -> by congruence. set_solver.
        -- right. by exists h.
    + apply IH in Hx as (-> & Hin & Hout); [|done]. split_and!; [done|done|].
      intros a [?|(h & [->|?]%elem_of_cons & Hj & Hv)]; apply Hout; auto.
      * assert (a = a0) as -> by congruence. congruence.
      * right. by exists h.
Qed.

(** Without [--dedup-params], [extract] on a page returns exactly the
    in-scope links of the page, each resolved anchor that passes
    [is_valid], and changes no variable of the program. *)
Theorem extract_without_dedup `{UrlOracle} args w u st base hrefs links st' :
  DEDUP_PARAM_SIG args = false →
  http w u = Document base hrefs →
  extract args w u st = Ok (links, st') →
  st' = st
  ∧ ∀ a, a ∈ links ↔ in_scope_link w (allowed_domains st) base hrefs a.
Proof.
  intros Hd Hh Hx. unfold extract in Hx. rewrite Hh in Hx.
  exc_inv Hx. destruct x as [l s]. injection Hx as <- <-.
  apply (extract_links_plain args w _ _ hrefs) in Hx0
    as (-> & Hin & Hout); [|done|done].
  split; [by destruct st|]. intros a. split.
  - intros [?%elem_of_empty|?]%Hin; done.
  - intros ?. apply Hout. by right.
Qed.

Lemma extract_without_dedup_witness :
  "http://h/b" ∈ ({["http://h/b"; "http://h/c"]} : gset string) ↔
  @in_scope_link strict_oracle world_bfs {["h"]} "http://h/a"
    ["http://h/b"; "http://h/c"] "http://h/b".
Proof.
  refine (proj2 (@extract_without_dedup strict_oracle
            (cli "http://h/a" 4 false) world_bfs "http://h/a"
            (st_of ["h"] ["http://h/a"] [] [] [] ["http://h/a"])
            "http://h/a" ["http://h/b"; "http://h/c"]
            {["http://h/b"; "http://h/c"]}
            (st_of ["h"] ["http://h/a"] [] [] [] ["http://h/a"])
            eq_refl eq_refl _) "http://h/b").
  vm_compute; reflexivity.
Defined.

Lemma in_scope_link_mono `{UrlOracle} w allowed base hrefs all a :
  hrefs ⊆ all → in_scope_link w allowed base hrefs a →
  in_scope_link w allowed base all a.
Proof. intros Hsub (h & ? & ?). exists h. split; [set_solver|done]. Qed.

Lemma extract_links_fresh `{UrlOracle} args w allowed base all seen0 hrefs
    links seen links' seen' :
  DEDUP_PARAM_SIG args = true →
  hrefs ⊆ all →
  fresh_links w allowed base all seen0 links seen →
  extract_links args w allowed base hrefs links seen = Ok (links', seen') →
  fresh_links w allowed base all seen0 links' seen'
  ∧ ∀ a, in_scope_link w allowed base hrefs a →
         ∃ s, normalize_param_signature a = Ok s ∧ s ∈ seen'.
Proof.
  intros Hd. revert links seen.
  induction hrefs as [|href rest IH]; intros links seen Hsub J; simpl.
  - intros [= <- <-]. split; [done|]. by intros a (h & ?%elem_of_nil & _).
  - intros Hx. exc_inv Hx. rename x into a0, x0 into ok.
    assert (rest ⊆ all) as Hsub' by set_solver.
    assert (href ∈ all) as Hin by set_solver.
    rewrite Hd in Hx. destruct ok.
    2:{ apply IH in Hx as [J' Hrec]; [|done|done]. split; [done|].
        intros a (h & [->|?]%elem_of_cons & Hj & Hv).
        - assert (a = a0) as -> by congruence. congruence.
        - apply Hrec. by exists h. }
    exc_inv Hx. rename x into sig.
    destruct (bool_decide (sig ∈ seen)) eqn:Hs.
    + apply bool_decide_eq_true in Hs.
      pose proof Hx as Hx'. apply extract_links_spec in Hx' as (_ & Hmono & _).
      apply IH in Hx as [J' Hrec]; [|done|done]. split; [done|].
      intros a (h & [->|?]%elem_of_cons & Hj & Hv).
      * assert (a = a0) as -> by congruence. exists sig. split; [done|set_solver].
      * apply Hrec. by exists h.
    + apply bool_decide_eq_false in Hs.
      pose proof Hx as Hx'. apply extract_links_spec in Hx' as (_ & Hmono & _).
      destruct J as (J0 & J1 & J2 & J3 & J4).
      assert (a0 ∉ links) as Hnew.
      { intros [_ (s & Hs1 & Hs2 & _)]%J1. congruence. }
      apply IH in Hx as [J' Hrec]; [| done |].
      * split; [done|].
        intros a (h & [->|?]%elem_of_cons & Hj & Hv).
        -- assert (a = a0) as -> by congruence.
           exists sig. split; [done|set_solver].
        -- apply Hrec. by exists h.
      * split_and!.
        -- set_solver.
        -- intros a [->%elem_of_singleton|Ha]%elem_of_union.
           ++ split; [by exists href|]. exists sig.
              split_and!; [done|set_solver|set_solver].
           ++ destruct (J1 a Ha) as [? (s & ? & ? & ?)]. split; [done|].
              exists s. split_and!; [done|set_solver|done].
        -- intros s [->%elem_of_singleton|Hin']%elem_of_union.
           ++ right. exists a0. split; [set_solver|done].
           ++ destruct (J2 s Hin') as [?|(a & ? & ?)]; [by left|].
              right. exists a. split; [set_solver|done].
        -- intros a1 a2 s [->%elem_of_singleton|H1]%elem_of_union
             [->%elem_of_singleton|H2]%elem_of_union E1 E2; [done| | |].
           ++ destruct (J1 a2 H2) as [_ (s' & ? & ? & _)]. congruence.
           ++ destruct (J1 a1 H1) as [_ (s' & ? & ? & _)]. congruence.
           ++ by apply (J3 a1 a2 s).
        -- rewrite !size_union by set_solver. rewrite !size_singleton. lia.
Qed.

(** Under [--dedup-params], what [extract] returns for a page: each
    link is an in-scope link of the page whose signature was not on
    record; no two of them share a signature; the signatures on record
    afterwards are the former ones and those of the links returned, one
    more for each link; and the signature of every in-scope link of the
    page is then on record. *)
Theorem extract_with_dedup `{UrlOracle} args w u st base hrefs links st' :
  DEDUP_PARAM_SIG args = true →
  http w u = Document base hrefs →
  extract args w u st = Ok (links, st') →
  st' = set_seen (seen_param_signatures st') st
  ∧ fresh_links w (allowed_domains st) base hrefs
      (seen_param_signatures st) links (seen_param_signatures st')
  ∧ ∀ a, in_scope_link w (allowed_domains st) base hrefs a →
         ∃ s, normalize_param_signature a = Ok s
              ∧ s ∈ seen_param_signatures st'.
Proof.
  intros Hd Hh Hx. unfold extract in Hx. rewrite Hh in Hx.
  exc_inv Hx. destruct x as [l s]. injection Hx as <- <-. simpl.
  split; [done|].
  apply (extract_links_fresh args w (allowed_domains st) base hrefs
           (seen_param_signatures st) hrefs ∅ (seen_param_signatures st) l s);
    [done|done| |done].
  split_and!; [done|by intros a ?%elem_of_empty|by left|
               by intros a1 a2 s0 ?%elem_of_empty|].
  rewrite size_empty. lia.
Qed.

Lemma extract_with_dedup_witness :
  size ({["/p?params=id"; "/p?params=id&x"]} : gset string)
  = (size (∅ : gset string)
     + size ({["http://h/p?id=1"; "http://h/p?id=3&x=1"]} : gset string))%nat.
Proof.
  pose proof (@extract_with_dedup strict_oracle (cli "http://h/" 50 true)
    world_sig "http://h/" (st_of ["h"] ["http://h/"] [] [] [] ["http://h/"])
    "http://h/" ["http://h/p?id=1"; "http://h/p?id=2"; "http://h/p?id=3&x=1"]
    {["http://h/p?id=1"; "http://h/p?id=3&x=1"]}
    (st_of ["h"] ["http://h/"] [] [] ["/p?params=id"; "/p?params=id&x"]
       ["http://h/"]) eq_refl eq_refl) as Hw.
  destruct Hw as (_ & (_ & _ & _ & _ & Hsz) & _); [vm_compute; reflexivity|].
  exact Hsz.
Defined.

(** ** The whole site, and the count of signatures *)

(** Without [--dedup-params] the crawl is closed under in-scope links:
    every in-scope link of a visited page is found, and visited or
    queued; so when the loop ends with the budget not used up, every
    in-scope link of every visited page has been visited too. *)
Theorem crawl_closed_under_links `{UrlOracle} args w st0 :
  iterates_once w →
  load_urls args w = Ok st0 →
  DEDUP_PARAM_SIG args = false →
  (∀ st u base hrefs a,
     reachable args w st0 st → u ∈ visited st →
     http w u = Document base hrefs →
     in_scope_link w (allowed_domains st0) base hrefs a →
     a ∈ found st ∧ (a ∈ visited st ∨ a ∈ queue st))
  ∧ (∀ fuel st u base hrefs a,
       crawl_loop args w fuel st0 = Finished st →
       (Z.of_nat (size (visited st)) < MAX_PAGES args)%Z →
       u ∈ visited st → http w u = Document base hrefs →
       in_scope_link w (allowed_domains st0) base hrefs a →
       a ∈ visited st).
Proof.
  intros Hi Hl Hd.
  destruct (load_urls_spec _ _ _ Hl) as (seeds & Hs & _ & Hst0 & _).
  pose proof (load_urls_inv args w st0 seeds Hi Hl Hs) as I0.
  assert (∀ st, reachable args w st0 st →
            ∀ u base hrefs a, u ∈ visited st →
              http w u = Document base hrefs →
              in_scope_link w (allowed_domains st0) base hrefs a →
              a ∈ found st) as Hcl.
  { apply (@rtc_ind_r State (step args w)
             (λ st, ∀ u base hrefs a, u ∈ visited st →
                http w u = Document base hrefs →
                in_scope_link w (allowed_domains st0) base hrefs a →
                a ∈ found st) st0).
    - intros u base hrefs a. rewrite Hst0. simpl. by intros ?%elem_of_empty.
    - intros st1 st2 Hr1 Hs12 IH u base hrefs a.
      pose proof (reachable_inv args w _ _ _ _ Hi Hr1 I0) as I1.
      destruct (step_shape args w _ _ _ _ Hi I1 Hs12)
        as (v & q & links & st2' & Hq & Hv & _ & _ & Hx & -> & _ & _ & -> & _).
      intros [->%elem_of_singleton|Hu]%elem_of_union Hh Ha.
      + apply elem_of_union. right.
        unfold extract in Hx. rewrite Hh in Hx. exc_inv Hx.
        destruct x as [l s]. injection Hx as <- _.
        apply (extract_links_plain args w _ _ hrefs) in Hx0
          as (_ & _ & Hout); [|done|done].
        apply Hout. right. simpl.
        by rewrite (inv_allowed _ _ _ _ I1).
      + apply elem_of_union. left. by apply (IH u base hrefs a). }
  split.
  - intros st u base hrefs a Hr Hu Hh Ha.
    assert (a ∈ found st) as Hf by by apply (Hcl st Hr u base hrefs a).
    split; [done|]. by apply (found_frontier args w st0).
  - intros fuel st u base hrefs a [Hr Hc]%crawl_loop_reachable Hlt Hu Hh Ha.
    assert (a ∈ found st) as Hf by by apply (Hcl st Hr u base hrefs a).
    destruct (found_frontier args w st0 st a Hi Hl Hr Hf) as [?|Hin]; [done|].
    unfold loop_cond in Hc. apply andb_false_iff in Hc as [Hc|Hc].
    + apply negb_false_iff, bool_decide_eq_true in Hc.
      rewrite Hc in Hin. by apply elem_of_nil in Hin.
    + apply bool_decide_eq_false in Hc. lia.
Qed.

Lemma crawl_closed_under_links_witness :
  iterates_once world_bfs
  ∧ @load_urls strict_oracle (cli "http://h/a" 4 false) world_bfs
    = Ok (seeded "http://h/a" "h")
  ∧ ∀ st, @step strict_oracle (cli "http://h/a" 4 false) world_bfs
            (seeded "http://h/a" "h") st →
          "http://h/a" ∈ visited st → "http://h/b" ∈ found st.
Proof.
  split; [apply world_bfs_iterates_once|].
  split; [vm_compute; reflexivity|]. intros st Hst Hv.
  refine (proj1 (proj1 (@crawl_closed_under_links strict_oracle
            (cli "http://h/a" 4 false) world_bfs (seeded "http://h/a" "h")
            world_bfs_iterates_once _ eq_refl)
            st "http://h/a" "http://h/a" ["http://h/b"; "http://h/c"]
            "http://h/b" _ Hv eq_refl _)).
  - vm_compute; reflexivity.
  - by apply rtc_once.
  - exists "http://h/b". split_and!; [set_solver|done|vm_compute; reflexivity].
Defined.

Lemma extract_dedup_sizes `{UrlOracle} args w u st links st' :
  DEDUP_PARAM_SIG args = true →
  sig_inv args (found st) (seen_param_signatures st) →
  extract args w u st = Ok (links, st') →
  size (found st ∪ links) = (size (found st) + size links)%nat
  ∧ size (seen_param_signatures st')
    = (size (seen_param_signatures st) + size links)%nat.
Proof.
  intros Hd [_ Hab] Hx. destruct (Hab Hd) as [Ha _].
  unfold extract in Hx.
  destruct (http w u) as [|msg|msg|e|base hrefs] eqn:Hh; [..|done|].
  1-3: exc_inv Hx; injection Hx as <- <-;
       apply log_ok in Hx0 as [_ ->];
       rewrite (right_id_L ∅ (∪)), size_empty; split; [lia|];
       destruct st; simpl; lia.
  exc_inv Hx. destruct x as [l s]. injection Hx as <- <-. simpl.
  destruct (extract_links_fresh args w (allowed_domains st) base hrefs
              (seen_param_signatures st) hrefs ∅ (seen_param_signatures st)
              l s Hd) as [(_ & J1 & _ & _ & J4) _]; [done| |done|].
  { split_and!; [done|by intros a ?%elem_of_empty|by left|
                 by intros a1 a2 s0 ?%elem_of_empty|].
    rewrite size_empty. lia. }
  split; [|done]. apply size_union. intros a Hf Hl.
  destruct (Ha a Hf) as (s1 & Hs1 & Hin).
  destruct (J1 a Hl) as [_ (s2 & Hs2 & _ & Hout)]. congruence.
Qed.

(** Under [--dedup-params] there are as many found links as recorded
    signatures, at every point of a run: each admitted link brought its
    own signature. *)
Theorem dedup_counts_agree `{UrlOracle} args w st0 st :
  iterates_once w →
  load_urls args w = Ok st0 →
  DEDUP_PARAM_SIG args = true →
  reachable args w st0 st →
  size (found st) = size (seen_param_signatures st).
Proof.
  intros Hi Hl Hd.
  destruct (load_urls_spec _ _ _ Hl) as (seeds & Hs & _ & Hst0 & _).
  pose proof (load_urls_inv args w st0 seeds Hi Hl Hs) as I0.
  revert st.
  apply (@rtc_ind_r State (step args w)
           (λ st, size (found st) = size (seen_param_signatures st)) st0).
  - by rewrite Hst0.
  - intros st1 st2 Hr1 Hs12 IH.
    pose proof (reachable_inv args w _ _ _ _ Hi Hr1 I0) as I1.
    destruct (step_shape args w _ _ _ _ Hi I1 Hs12)
      as (v & q & links & st2' & _ & _ & _ & _ & Hx & _ & _ & _ & -> & -> & _).
    apply extract_dedup_sizes in Hx as [Hf Hse]; [|done|apply I1].
    simpl in *. lia.
Qed.

Lemma dedup_counts_agree_witness :
  iterates_once world_sig
  ∧ @load_urls strict_oracle (cli "http://h/" 50 true) world_sig
    = Ok (seeded "http://h/" "h")
  ∧ ∀ st, @step strict_oracle (cli "http://h/" 50 true) world_sig
            (seeded "http://h/" "h") st →
          size (found st) = size (seen_param_signatures st).
Proof.
  assert (iterates_once world_sig) as Hi by (by intros X).
  split; [done|].
  split; [vm_compute; reflexivity|]. intros st Hst.
  apply (@dedup_counts_agree strict_oracle (cli "http://h/" 50 true)
           world_sig (seeded "http://h/" "h") st Hi);
    [vm_compute; reflexivity|done|by apply rtc_once].
Defined.

(** ** The report *)

Lemma py_sorted_spec w (X : gset string) :
  iterates_once w →
  StronglySorted String.le (py_sorted (set_iter w X))
  ∧ NoDup (py_sorted (set_iter w X))
  ∧ (∀ u, u ∈ py_sorted (set_iter w X) ↔ u ∈ X)
  ∧ length (py_sorted (set_iter w X)) = size X.
Proof.
  intros Hi. unfold py_sorted.
  assert (merge_sort String.le (set_iter w X) ≡ₚ elements X) as Hp.
  { by rewrite merge_sort_Permutation. }
  split_and!.
  - apply (StronglySorted_merge_sort _).
  - rewrite Hp. apply NoDup_elements.
  - intros u. by rewrite Hp, elem_of_elements.
  - by rewrite Hp.
Qed.

Lemma span_rest_chars P s h t :
  Str.span P s = (h, t) → Str.to_list t ⊆ Str.to_list s.
Proof.
  revert h t. induction s as [|a s IH]; intros h t; simpl.
  - by intros [= <- <-].
  - destruct (P a); [|by intros [= <- <-]].
    destruct (Str.span P s) as [h' t'] eqn:Hs. intros [= <- <-].
    specialize (IH _ _ eq_refl). set_solver.
Qed.

Lemma split_netloc_rest_chars url nl rest :
  Url.split_netloc url = Some (nl, rest) →
  Str.to_list rest ⊆ Str.to_list url.
Proof.
  unfold Url.split_netloc.
  destruct url as [|a url]; [done|].
  destruct a as [[] [] [] [] [] [] [] []]; try done.
  destruct url as [|b r]; [done|].
  destruct b as [[] [] [] [] [] [] [] []]; try done.
  intros [= Hs]. apply span_rest_chars in Hs. simpl. set_solver.
Qed.

Lemma partition_contains c s h t :
  Str.partition c s = Some (h, t) → Str.contains c s = true.
Proof.
  revert h. induction s as [|a s IH]; intros h; simpl; [done|].
  destruct (Ascii.eqb a c); [done|].
  destruct (Str.partition c s) as [[h' t']|]; [|done].
  intros [= _ <-]. by apply (IH h').
Qed.

Lemma query_has_mark `{UrlOracle} u p :
  Url.urlparse u = Ok p → query p ≠ "" → Str.contains "?" u = true.
Proof.
  intros Hp Hq.
  assert (∃ r, Url.urlsplit u = Ok r ∧ query r = query p) as (r & Hr & Hqr).
  { unfold Url.urlparse in Hp. exc_inv Hp. exists x. split; [done|].
    destruct (_ && _); [|by injection Hp as <-].
    destruct (Url.splitparams _). by injection Hp as <-. }
  rewrite <-Hqr in Hq. clear Hp Hqr. revert Hr. unfold Url.urlsplit.
  set (url := Url.remove_unsafe _).
  assert (Str.to_list url ⊆ Str.to_list u) as Hurl.
  { unfold url, Url.remove_unsafe.
    etrans; [apply remove_chars|]. etrans; [apply remove_chars|].
    etrans; [apply remove_chars|]. apply lstrip_chars. }
  destruct (Url.split_scheme url) as [sch url1] eqn:Hs.
  apply split_scheme_chars in Hs.
  assert (∀ url2 frag url3 q,
            Str.to_list url2 ⊆ Str.to_list u →
            default (url2, "") (Str.partition "#" url2) = (url3, frag) →
            default (url3, "") (Str.partition "?" url3) = (q.1, q.2) →
            q.2 ≠ "" → Str.contains "?" u = true) as Hcut.
  { intros url2 frag url3 [h q] Hsub Hf Hm Hne. simpl in *.
    assert (Str.to_list url3 ⊆ Str.to_list url2) as Hsub3.
    { destruct (Str.partition "#" url2) as [[h' t']|] eqn:Hpf; simpl in Hf.
      - injection Hf as <- <-. by apply partition_chars in Hpf as [? _].
      - by injection Hf as <- <-. }
    destruct (Str.partition "?" url3) as [[h' t']|] eqn:Hpm; simpl in Hm.
    - apply partition_contains, contains_elem in Hpm.
      apply contains_elem. set_solver.
    - by injection Hm as <- <-. }
  intros Hr. exc_inv Hr. destruct x as [nl url2].
  assert (Str.to_list url2 ⊆ Str.to_list u) as Hsub2.
  { destruct (Url.split_netloc url1) as [[nl' rest]|] eqn:Hn.
    - exc_inv Hx. injection Hx as <- <-.
      apply split_netloc_rest_chars in Hn. set_solver.
    - injection Hx as <- <-. set_solver. }
  destruct (default (url2, "") (Str.partition "#" url2))
    as [url3 frag] eqn:Hf.
  destruct (default (url3, "") (Str.partition "?" url3))
    as [url4 q] eqn:Hm.
  exc_inv Hr. injection Hr as <-. simpl.
  by apply (Hcut url2 frag url3 (url4, q)).
Qed.

Lemma count_app c s1 s2 :
  Str.count c (s1 +:+ s2) = (Str.count c s1 + Str.count c s2)%nat.
Proof.
  induction s1 as [|a s1 IH]; simpl; [done|].
  change (String.app s1 s2) with (s1 +:+ s2). rewrite IH.
  by destruct (Ascii.eqb a c).
Qed.

Lemma count_contains c s : Str.contains c s = false ↔ Str.count c s = 0%nat.
Proof.
  induction s as [|a s IH]; simpl; [done|].
  destruct (Ascii.eqb a c); [done|]. exact IH.
Qed.

(** A file written line by line has as many line feeds as lines when no
    line holds one, and more otherwise. *)
Lemma write_lines_count l :
  (length l ≤ Str.count "010" (write_lines l))%nat
  ∧ ((∀ x, x ∈ l → Str.contains "010" x = false) ↔
     Str.count "010" (write_lines l) = length l).
Proof.
  induction l as [|x l [IH1 IH2]]; simpl.
  - split; [done|]. split; [done|]. by intros _ x ?%elem_of_nil.
  - rewrite !count_app. change (Str.count "010" newline) with 1%nat.
    split; [lia|]. split.
    + intros Hall.
      assert (Str.count "010" x = 0%nat) as ->.
      { apply count_contains, Hall. by left. }
      rewrite (proj1 IH2); [lia|]. intros y Hy. apply Hall. by right.
    + intros Hc.
      assert (Str.count "010" x = 0%nat
              ∧ Str.count "010" (write_lines l) = length l) as [H0 Hl]
        by lia.
      intros y [->|Hy]%elem_of_cons; [by apply count_contains|].
      by apply IH2.
Qed.



(** A URL whose query string is not empty holds a question mark, so
    [save_results] lists in found_parameters.txt every visited or found
    URL that has a query string. *)
Theorem urls_with_query_are_listed `{UrlOracle} args w st u p :
  iterates_once w →
  u ∈ visited st ∪ found st →
  Url.urlparse u = Ok p → query p ≠ "" →
  Str.contains "?" u = true
  ∧ ∃ Lp, found_parameters (save_results args w st) = write_lines Lp
          ∧ u ∈ Lp.
Proof.
  intros Hi Hu Hp Hq.
  pose proof (query_has_mark u p Hp Hq) as Hm. split; [done|].
  eexists. split; [reflexivity|].
  apply list_elem_of_filter. split; [done|].
  by apply (py_sorted_spec w _ Hi).
Qed.

Lemma urls_with_query_are_listed_witness :
  ∃ Lp, found_parameters
          (save_results (cli "http://h/p?id=1" 5 true) world_params
             (st_of ["h"] ["http://h/p?id=1"] [] ["http://h/p?id=2"]
                ["/p?params=id"] ["http://h/p?id=1"]))
        = write_lines Lp
        ∧ "http://h/p?id=2" ∈ Lp.
Proof.
  assert (iterates_once world_params) as Hi by (by intros X).
  refine (proj2 (@urls_with_query_are_listed strict_oracle
            (cli "http://h/p?id=1" 5 true) world_params
            (st_of ["h"] ["http://h/p?id=1"] [] ["http://h/p?id=2"]
               ["/p?params=id"] ["http://h/p?id=1"])
            "http://h/p?id=2" _ Hi _ eq_refl _)).
  - vm_compute. set_solver.
  - done.
Defined.

Lemma table_rows_of_urls w st :
  (table_rows_of w st).*2 = py_sorted (set_iter w (visited st ∪ found st)).
Proof.
  unfold table_rows_of. rewrite fmap_imap.
  generalize (py_sorted (set_iter w (visited st ∪ found st))).
  intros l. induction l as [|x l IH] using rev_ind; [done|].
  rewrite imap_app. simpl. by rewrite IH.
Qed.

Lemma show_table_ok w st rows :
  show_table w st = Ok rows →
  rows = table_rows_of w st
  ∧ rows.*2 = py_sorted (set_iter w (visited st ∪ found st))
  ∧ ∀ u, u ∈ rows.*2 → markup w u = true.
Proof.
  unfold show_table. intros Hs. exc_inv Hs. injection Hs as <-.
  split; [done|]. split; [apply table_rows_of_urls|].
  destruct x. by apply print_all_ok.
Qed.



(** ** The end of [crawl] *)

(** When [crawl] ends without an exception, the table lists a URL
    exactly when it was visited or found; every URL of the table is a
    seed or passed [is_valid]; every seed is in the table unless the
    budget ran out first; and with [--save] found_urls.txt holds the
    URLs of the table, in its order.  Without [--save] nothing is
    written. *)
Theorem report_contents `{UrlOracle} args w st0 save fuel st table saved :
  iterates_once w →
  load_urls args w = Ok st0 →
  crawl args w save fuel st0 = Reported st table saved →
  (∀ u, u ∈ table.*2 ↔ u ∈ visited st ∨ u ∈ found st)
  ∧ (∀ u, u ∈ table.*2 →
       is_seed args u ∨ is_valid (allowed_domains st0) u = Ok true)
  ∧ ((MAX_PAGES args ≤ Z.of_nat (size (visited st)))%Z
     ∨ ∀ u, is_seed args u → u ∈ table.*2)
  ∧ match saved with
    | Some s => save = true ∧ found_urls s = write_lines table.*2
    | None => save = false
    end.
Proof.
  intros Hi Hl Hc. unfold crawl in Hc.
  destruct (banner w st0); [|done].
  destruct (crawl_loop args w fuel st0) as [st'| |] eqn:Hloop; try done.
  destruct (show_table w st') as [rows|] eqn:Hsh; [|done].
  injection Hc as -> -> <-.
  apply show_table_ok in Hsh as (_ & Hrows & _).
  apply crawl_loop_reachable in Hloop as [Hr Hcond].
  destruct (run_inv args w st0 st Hi Hl Hr) as (seeds & Hs & I).
  assert (∀ u, u ∈ table.*2 ↔ u ∈ visited st ∨ u ∈ found st)
    as Hmem.
  { intros u. rewrite Hrows.
    rewrite (proj1 (proj2 (proj2 (py_sorted_spec w _ Hi)))).
    apply elem_of_union. }
  split_and!.
  - done.
  - intros u [Hv|Hf]%Hmem.
    + destruct (inv_origin _ _ _ _ I u) as [Hin|Hf]; [by right| |].
      * left. by apply (seed_urls_ok args seeds u Hs).
      * right. by apply (inv_scope _ _ _ _ I).
    + right. by apply (inv_scope _ _ _ _ I).
  - unfold loop_cond in Hcond. apply andb_false_iff in Hcond as [Hq|Hb].
    + right. intros u Hu%(seed_urls_ok args seeds u Hs).
      apply negb_false_iff, bool_decide_eq_true in Hq.
      apply Hmem. left.
      destruct (inv_seeds _ _ _ _ I u Hu) as [Hin|?]; [|done].
      rewrite Hq in Hin. by apply elem_of_nil in Hin.
    + left. apply bool_decide_eq_false in Hb. lia.
  - destruct save; [|done]. split; [done|].
    simpl. by rewrite Hrows.
Qed.

Lemma report_contents_witness :
  iterates_once world_timeout
  ∧ ∃ st table,
      @crawl strict_oracle (cli "ftp://h/x" 5 true) world_timeout true 5
        (seeded "ftp://h/x" "h")
      = Reported st table
          (Some (save_results (cli "ftp://h/x" 5 true) world_timeout st))
      ∧ ∀ u, u ∈ table.*2 ↔ u ∈ visited st ∨ u ∈ found st.
Proof.
  split; [apply world_timeout_iterates_once|].
  destruct (@crawl strict_oracle (cli "ftp://h/x" 5 true) world_timeout true 5
              (seeded "ftp://h/x" "h")) as [st table saved| |] eqn:Hc;
    [|by vm_compute in Hc..].
  assert (saved
          = Some (save_results (cli "ftp://h/x" 5 true) world_timeout st))
    as ->.
  { unfold crawl in Hc. destruct (banner _ _); [|done].
    destruct (crawl_loop _ _ _ _); [|done..].
    destruct (show_table _ _); [|done].
    by injection Hc as -> _ <-. }
  exists st, table. split; [done|].
  refine (proj1 (@report_contents strict_oracle (cli "ftp://h/x" 5 true)
            world_timeout (seeded "ftp://h/x" "h") true 5 st table _
            world_timeout_iterates_once _ Hc)).
  vm_compute; reflexivity.
Defined.
